(** * ExpoNess: the Suno generation lifecycle, its track cache and the
      remote-service wrapper

    A shallow embedding of
      - [types/suno.ts]            (the data model),
      - [services/sunoApi.ts]      (the remote-service wrapper [SunoApiService]),
      - [hooks/useSunoGeneration]  (the generation lifecycle manager and the
                                    local track cache),
    followed by the properties of the specification that concern them.

    Conventions of the embedding.
      - Timestamps are milliseconds since the epoch, in [Z]; an ISO string
        produced by [toISOString] and read back by [new Date] is the same
        instant, so [cached_at] holds the instant itself.
      - [progress] is the exact rational that the source computes in
        double precision.
      - An [async] function is cut at each [await] on the remote service
        into the part that runs up to the call and its continuation, so
        that other events can be interleaved in between; accesses to
        AsyncStorage are taken to resolve on the spot. *)

From Stdlib Require Import ZArith QArith Qminmax Lia Bool.
From stdpp Require Import base option list strings gmap pretty sorting.

Close Scope Q_scope.
Open Scope string_scope.
Open Scope list_scope.

(** ** Data model ([types/suno.ts]) *)

(** The status of a track; ['error'] is [error_status]. *)
Inductive TrackStatus := submitted | queued | streaming | complete | error_status.

Definition TrackStatus_eqb (a b : TrackStatus) : bool :=
  match a, b with
  | submitted, submitted | queued, queued | streaming, streaming
  | complete, complete | error_status, error_status => true
  | _, _ => false
  end.

Record SunoTrack := {
  track_id : string;
  track_title : string;
  audio_url : option string;
  track_status : TrackStatus
}.

(** [GenerationResponse] and [ExtendTrackResponse] are read through the
    same two fields. *)
Record GenerationResponse := {
  generation_id : string;
  clips : list SunoTrack
}.

Abbreviation ExtendTrackResponse := GenerationResponse.

Record LyricsResponse := {
  lyrics_text : string;
  lyrics_title : string
}.

Record GenerationOptions := {
  opt_model : option string;
  opt_make_instrumental : option bool;
  opt_wait_audio : option bool;
  opt_tags : option string;
  opt_title : option string
}.

Record ExtendOptions := {
  continueAt : option nat;
  ext_tags : option string;
  ext_title : option string;
  makeInstrumental : option bool
}.

Record SunoApiError := {
  code : string;
  message : string;
  http_status : option nat
}.

(** [SunoApiResponse<T>]: both fields are optional in the source.  A
    present [data] field holds the parsed body, which may be JSON [null]
    (the inner [None]). *)
Record SunoApiResponse (T : Type) := {
  data : option (option T);
  error : option SunoApiError
}.
Arguments data {T} _.
Arguments error {T} _.

Record CachedTrack := {
  cached_track : SunoTrack;
  cached_at : Z;
  local_id : Z * N
}.

(** What a value declared [CachedTrack] can be at run time.  [JSON.parse]
    does not check the shape of what it reads: besides a cached track it
    gives any other JSON value (an object without [cached_at], a number,
    an array, ...).  Of such a value the code reads its truthiness, the
    time [new Date(v.cached_at).getTime()] ([None] when that is NaN, as
    for a missing [cached_at]) and [v.id] (kept when it is a string). *)
Record ForeignValue := {
  foreign_truthy : bool;
  foreign_time : option Z;
  foreign_id : option string
}.

Inductive CachedValue :=
| Entry (c : CachedTrack)
| Foreign (v : ForeignValue).

Coercion Entry : CachedTrack >-> CachedValue.

Definition time_of (v : CachedValue) : option Z :=
  match v with
  | Entry c => Some (cached_at c)
  | Foreign f => foreign_time f
  end.

Definition id_of (v : CachedValue) : option string :=
  match v with
  | Entry c => Some (track_id (cached_track c))
  | Foreign f => foreign_id f
  end.

Definition is_truthy (v : CachedValue) : bool :=
  match v with
  | Entry _ => true
  | Foreign f => foreign_truthy f
  end.

(** JavaScript truthiness of a string, and [a || b] on optional strings. *)
Definition truthy (s : string) : bool := negb (String.eqb s "").

Definition js_or (o : option string) (d : string) : string :=
  match o with
  | Some s => if truthy s then s else d
  | None => d
  end.

Definition is_terminal (t : SunoTrack) : bool :=
  match track_status t with
  | complete | error_status => true
  | _ => false
  end.

Definition is_complete (t : SunoTrack) : bool :=
  TrackStatus_eqb (track_status t) complete.

(** ** The remote-service wrapper ([services/sunoApi.ts]) *)

Module SunoApi.

(** What a rejected promise carries: an [Error] with its message, or
    some other value. *)
Inductive Thrown := ThrownError (msg : string) | ThrownOther.

(** The parsed body of a reply: JSON [null], or a value read at the
    type the caller expects, together with the [message] and [error]
    members that the failure path looks up. *)
Inductive Body (T : Type) :=
| BodyNull
| BodyValue (v : T) (body_message body_error : option string).
Arguments BodyNull {T}.
Arguments BodyValue {T} _ _ _.

(** Every way one [fetch] followed by [response.json()] can end: no
    reply; a reply whose body does not parse as JSON; a reply whose body
    parses. *)
Inductive FetchOutcome (T : Type) :=
| FetchRejected (e : Thrown)
| JsonRejected (ok : bool) (status : nat) (e : Thrown)
| HttpReply (ok : bool) (status : nat) (b : Body T).
Arguments FetchRejected {T} _.
Arguments JsonRejected {T} _ _ _.
Arguments HttpReply {T} _ _ _.

Inductive RequestBody :=
| GenerationRequest (prompt : string) (tags title : option string)
    (make_instrumental wait_audio : bool) (model : string)
| ExtendTrackRequest (audio_id prompt : string) (continue_at : option nat)
    (tags title : option string) (make_instrumental : bool)
| LyricsRequest (prompt : string).

Record RequestInit := {
  method : option string;
  body : option RequestBody
}.

Definition no_init : RequestInit := {| method := None; body := None |}.

Record Request := {
  url : string;
  authorization : string;
  init : RequestInit
}.

(** The service object, the clock it reads and the requests that went
    out on the network. *)
Record Service := {
  apiKey : option string;
  lastRequestTime : Z;
  now : Z;
  sent : list Request
}.

Definition baseUrl : string := "https://api.sunoapi.org".
Definition rateLimitDelay : Z := 1000.

Definition M (A : Type) : Type := Service -> A * Service.

Definition setApiKey (k : string) (s : Service) : Service :=
  {| apiKey := Some k; lastRequestTime := lastRequestTime s;
     now := now s; sent := sent s |}.

(** [handleRateLimit]: sleep for what is missing of the minimum gap,
    then stamp the request. *)
Definition handleRateLimit (s : Service) : Service :=
  let timeSinceLastRequest := (now s - lastRequestTime s)%Z in
  let woke :=
    if (timeSinceLastRequest <? rateLimitDelay)%Z
    then (now s + (rateLimitDelay - timeSinceLastRequest))%Z
    else now s in
  {| apiKey := apiKey s; lastRequestTime := woke; now := woke; sent := sent s |}.

Definition send (r : Request) (s : Service) : Service :=
  {| apiKey := apiKey s; lastRequestTime := lastRequestTime s;
     now := now s; sent := sent s ++ [r] |}.

Definition error_response {T} (c m : string) (st : option nat) : SunoApiResponse T :=
  {| data := None;
     error := Some {| code := c; message := m; http_status := st |} |}.

Definition no_api_key_message : string :=
  "Suno API key is not configured. Please set EXPO_PUBLIC_SUNO_API_KEY environment variable or call setApiKey().".

Definition unknown_network_error : string := "Unknown network error".

(** The body of the [try] block of [makeRequest]: either it throws, or
    it returns a response. *)
Definition attempt {T} (o : FetchOutcome T) : Thrown + SunoApiResponse T :=
  match o with
  | FetchRejected e => inl e
  | JsonRejected _ _ e => inl e
  | HttpReply ok st b =>
      if negb ok then
        match b with
        | BodyNull =>
            inl (ThrownError "Cannot read properties of null (reading 'message')")
        | BodyValue _ m e =>
            inr (error_response "API_ERROR"
                   (js_or m (js_or e ("HTTP " +:+ pretty st))) (Some st))
        end
      else
        inr {| data := Some match b with
                            | BodyNull => None
                            | BodyValue v _ _ => Some v
                            end;
               error := None |}
  end.

Definition makeRequest {T} (endpoint : string) (options : RequestInit)
    (o : FetchOutcome T) : M (SunoApiResponse T) :=
  fun s =>
    match apiKey s with
    | Some k =>
        if truthy k then
          let s1 := handleRateLimit s in
          let s2 := send {| url := baseUrl +:+ endpoint;
                            authorization := "Bearer " +:+ k;
                            init := options |} s1 in
          match attempt o with
          | inr r => (r, s2)
          | inl (ThrownError m) => (error_response "NETWORK_ERROR" m None, s2)
          | inl ThrownOther =>
              (error_response "NETWORK_ERROR" unknown_network_error None, s2)
          end
        else (error_response "NO_API_KEY" no_api_key_message None, s)
    | None => (error_response "NO_API_KEY" no_api_key_message None, s)
    end.

Definition post (b : option RequestBody) : RequestInit :=
  {| method := Some "POST"; body := b |}.

Definition generateMusic (prompt : string) (options : GenerationOptions)
    (o : FetchOutcome GenerationResponse) : M (SunoApiResponse GenerationResponse) :=
  makeRequest "/api/generate"
    (post (Some (GenerationRequest prompt (opt_tags options) (opt_title options)
                   (default false (opt_make_instrumental options))
                   (default false (opt_wait_audio options))
                   (js_or (opt_model options) "chirp-v3-5"))))
    o.

(** What a reply declared [SunoTrack[]] can hold at run time, the body
    being whatever JSON the server sent: an array, whose elements are
    track objects, JSON [null], or other values (on which [status] reads
    as [undefined]); or a value that is not an array, falsy (0, [false],
    the empty string) or not. *)
Inductive TrackElement :=
| ElementTrack (t : SunoTrack)
| ElementNull
| ElementOther.

Inductive TracksBody :=
| TrackArray (elements : list TrackElement)
| NotAnArray (is_truthy : bool).

Definition getTrack (trackId : string) (o : FetchOutcome TracksBody)
    : M (SunoApiResponse TracksBody) :=
  makeRequest ("/api/get?ids=" +:+ trackId) no_init o.

Definition join_ids (trackIds : list string) : string :=
  String.concat "," trackIds.

Definition getTracks (trackIds : list string) (o : FetchOutcome TracksBody)
    : M (SunoApiResponse TracksBody) :=
  makeRequest ("/api/get?ids=" +:+ join_ids trackIds) no_init o.

Definition extendTrack (trackId prompt : string) (options : ExtendOptions)
    (o : FetchOutcome ExtendTrackResponse) : M (SunoApiResponse ExtendTrackResponse) :=
  makeRequest "/api/extend_audio"
    (post (Some (ExtendTrackRequest trackId prompt (continueAt options)
                   (ext_tags options) (ext_title options)
                   (default false (makeInstrumental options)))))
    o.

Definition generateLyrics (prompt : string) (o : FetchOutcome LyricsResponse)
    : M (SunoApiResponse LyricsResponse) :=
  makeRequest "/api/generate_lyrics" (post (Some (LyricsRequest prompt))) o.

Definition polling_timeout_message : string :=
  "Tracks did not complete within the expected time frame".

Definition sleep (ms : nat) (s : Service) : Service :=
  {| apiKey := apiKey s; lastRequestTime := lastRequestTime s;
     now := (now s + Z.of_nat ms)%Z; sent := sent s |}.

(** How the promise of an [async] method without a [try] settles: with
    a value, or rejected with the TypeError that its body threw. *)
Inductive Settled (A : Type) :=
| Fulfilled (a : A)
| RejectedTypeError.
Arguments Fulfilled {A} _.
Arguments RejectedTypeError {A}.

(** [response.data || []]. *)
Definition data_or_empty (response : SunoApiResponse TracksBody) : TracksBody :=
  match data response with
  | Some (Some (TrackArray elements)) => TrackArray elements
  | Some (Some (NotAnArray true)) => NotAnArray true
  | Some (Some (NotAnArray false)) | Some None | None => TrackArray []
  end.

(** [tracks.every(track => track.status === 'complete' ||
    track.status === 'error')] on an array: [None] when the callback
    throws, which it does on a [null] element it gets to. *)
Fixpoint every_terminal (tracks : list TrackElement) : option bool :=
  match tracks with
  | [] => Some true
  | ElementTrack t :: rest => if is_terminal t then every_terminal rest else Some false
  | ElementNull :: _ => None
  | ElementOther :: _ => Some false
  end.

(** The same on whatever [tracks] is: a value that is not an array has
    no [every] to call. *)
Definition allCompleted (tracks : TracksBody) : option bool :=
  match tracks with
  | TrackArray elements => every_terminal elements
  | NotAnArray _ => None
  end.

(** The [for] loop of [pollTrackCompletion], from iteration [attempt]
    with [remaining] iterations left; [net] gives the outcome of the
    request sent in each iteration.  The method has no [try]: what
    [every] throws rejects its promise. *)
Fixpoint pollLoop (remaining attempt : nat) (trackIds : list string)
    (intervalMs : nat) (net : nat -> FetchOutcome TracksBody)
    : M (Settled (SunoApiResponse TracksBody)) :=
  fun s =>
    match remaining with
    | O => (Fulfilled (error_response "POLLING_TIMEOUT" polling_timeout_message None), s)
    | S remaining' =>
        let '(response, s1) := getTracks trackIds (net attempt) s in
        match error response with
        | Some _ => (Fulfilled response, s1)
        | None =>
            let tracks := data_or_empty response in
            match allCompleted tracks with
            | None => (RejectedTypeError, s1)
            | Some true => (Fulfilled response, s1)
            | Some false =>
                pollLoop remaining' (S attempt) trackIds intervalMs net
                  (sleep intervalMs s1)
            end
        end
    end.

Definition pollTrackCompletion (trackIds : list string)
    (maxAttempts intervalMs : nat) (net : nat -> FetchOutcome TracksBody)
    : M (Settled (SunoApiResponse TracksBody)) :=
  pollLoop maxAttempts 0 trackIds intervalMs net.

Definition getQuota {T} (o : FetchOutcome T) : M (SunoApiResponse T) :=
  makeRequest "/api/get_credits" no_init o.

Definition checkApiStatus {T} (o : FetchOutcome T) : M (SunoApiResponse T) :=
  makeRequest "/api/get_credits" no_init o.

Definition cancelGeneration {T} (generationId : string) (o : FetchOutcome T)
    : M (SunoApiResponse T) :=
  makeRequest ("/api/cancel/" +:+ generationId) (post None) o.

Definition getGenerationHistory (limit offset : nat)
    (o : FetchOutcome TracksBody) : M (SunoApiResponse TracksBody) :=
  makeRequest ("/api/feed?page=" +:+ pretty offset +:+ "&limit=" +:+ pretty limit)
    no_init o.


End SunoApi.

(** ** The lifecycle manager and the track cache ([hooks/useSunoGeneration]) *)

Module Hook.

Definition CACHE_KEY_PREFIX : string := "suno_track_".
Definition CACHE_EXPIRY_HOURS : Z := 24.

Record Options := {
  maxCachedTracks : nat;
  pollInterval : nat;
  maxPollAttempts : nat;
  autoStartPolling : bool
}.

Definition default_options : Options :=
  {| maxCachedTracks := 50; pollInterval := 5000;
     maxPollAttempts := 60; autoStartPolling := true |}.

(** [SunoGenerationStatus]; the status ['error'] is [failed] here, and the
    [error] cell of the hook is [error_message], since [error] names the
    field of a response. *)
Inductive SunoGenerationStatus := idle | generating | polling | completed | failed.

(** What AsyncStorage holds under a key, by what [JSON.parse] makes of
    the text:
      - the JSON text of a value other than [null]: a cached track, as
        [JSON.stringify] writes it, or any other value ('{}', '5', ...);
      - the empty text, the one falsy text, which [JSON.parse] rejects;
      - any other text on which [JSON.parse], or the read of [cached_at]
        on what it returned, throws: text that is not JSON, and the JSON
        text 'null'. *)
Inductive StoredValue :=
| Serialized (v : CachedValue)
| EmptyText
| Unreadable.

Definition JSON_stringify (c : CachedTrack) : StoredValue := Serialized c.

(** [JSON.parse] and the read of [cached_at] that follows it; [None]
    when one of them throws. *)
Definition JSON_parse (v : StoredValue) : option CachedValue :=
  match v with
  | Serialized parsed => Some parsed
  | EmptyText | Unreadable => None
  end.

Definition value_truthy (v : StoredValue) : bool :=
  match v with
  | Serialized _ | Unreadable => true
  | EmptyText => false
  end.

Inductive ApiCall :=
| CallGenerateMusic (prompt : string) (options : GenerationOptions)
| CallExtendTrack (trackId prompt : string) (options : ExtendOptions)
| CallGetTracks (trackIds : list string)
| CallGetTrack (trackId : string)
| CallCancelGeneration (generationId : string).

(** The effects a run leaves behind, oldest first. *)
Inductive Effect :=
| Remote (c : ApiCall)
| SetItem (key : string) (v : StoredValue)
| RemoveItem (key : string).

(** An [async] function suspended at its [await] on the remote service. *)
Inductive Pending :=
| AwaitGenerateMusic
| AwaitExtendTrack
| AwaitPoll (trackIds : list string)
| AwaitGetTrack (trackId : string)
| AwaitCancel.

(** The [useState] cells and the two refs. *)
Record State := {
  status : SunoGenerationStatus;
  progress : Q;
  tracks : list SunoTrack;
  error_message : option string;
  generationId : option string;
  cachedTracks : list CachedValue;
  pollTimeoutRef : option nat;
  pollAttemptsRef : nat
}.

Record World := {
  state : State;
  storage : gmap string StoredValue;
  clock : Z;
  entropy : list N;
  timers : list (nat * list string);
  inflight : list (nat * Pending);
  next_handle : nat;
  trace : list Effect
}.

Definition initial_state : State :=
  {| status := idle; progress := 0%Q; tracks := []; error_message := None;
     generationId := None; cachedTracks := [];
     pollTimeoutRef := None; pollAttemptsRef := 0 |}.

Definition initial_world (store : gmap string StoredValue) (t : Z) : World :=
  {| state := initial_state; storage := store; clock := t; entropy := [];
     timers := []; inflight := []; next_handle := 1; trace := [] |}.

Definition set_status v s :=
  {| status := v; progress := progress s; tracks := tracks s;
     error_message := error_message s; generationId := generationId s;
     cachedTracks := cachedTracks s; pollTimeoutRef := pollTimeoutRef s;
     pollAttemptsRef := pollAttemptsRef s |}.
Definition set_progress v s :=
  {| status := status s; progress := v; tracks := tracks s;
     error_message := error_message s; generationId := generationId s;
     cachedTracks := cachedTracks s; pollTimeoutRef := pollTimeoutRef s;
     pollAttemptsRef := pollAttemptsRef s |}.
Definition set_tracks v s :=
  {| status := status s; progress := progress s; tracks := v;
     error_message := error_message s; generationId := generationId s;
     cachedTracks := cachedTracks s; pollTimeoutRef := pollTimeoutRef s;
     pollAttemptsRef := pollAttemptsRef s |}.
Definition set_error v s :=
  {| status := status s; progress := progress s; tracks := tracks s;
     error_message := v; generationId := generationId s;
     cachedTracks := cachedTracks s; pollTimeoutRef := pollTimeoutRef s;
     pollAttemptsRef := pollAttemptsRef s |}.
Definition set_generationId v s :=
  {| status := status s; progress := progress s; tracks := tracks s;
     error_message := error_message s; generationId := v;
     cachedTracks := cachedTracks s; pollTimeoutRef := pollTimeoutRef s;
     pollAttemptsRef := pollAttemptsRef s |}.
Definition set_cachedTracks v s :=
  {| status := status s; progress := progress s; tracks := tracks s;
     error_message := error_message s; generationId := generationId s;
     cachedTracks := v; pollTimeoutRef := pollTimeoutRef s;
     pollAttemptsRef := pollAttemptsRef s |}.
Definition set_pollTimeoutRef v s :=
  {| status := status s; progress := progress s; tracks := tracks s;
     error_message := error_message s; generationId := generationId s;
     cachedTracks := cachedTracks s; pollTimeoutRef := v;
     pollAttemptsRef := pollAttemptsRef s |}.
Definition set_pollAttemptsRef v s :=
  {| status := status s; progress := progress s; tracks := tracks s;
     error_message := error_message s; generationId := generationId s;
     cachedTracks := cachedTracks s; pollTimeoutRef := pollTimeoutRef s;
     pollAttemptsRef := v |}.

Definition with_state (f : State -> State) w :=
  {| state := f (state w); storage := storage w; clock := clock w;
     entropy := entropy w; timers := timers w; inflight := inflight w;
     next_handle := next_handle w; trace := trace w |}.
Definition with_storage (f : gmap string StoredValue -> gmap string StoredValue)
    (e : Effect) w :=
  {| state := state w; storage := f (storage w); clock := clock w;
     entropy := entropy w; timers := timers w; inflight := inflight w;
     next_handle := next_handle w; trace := trace w ++ [e] |}.
Definition with_entropy v w :=
  {| state := state w; storage := storage w; clock := clock w;
     entropy := v; timers := timers w; inflight := inflight w;
     next_handle := next_handle w; trace := trace w |}.
Definition with_timers v w :=
  {| state := state w; storage := storage w; clock := clock w;
     entropy := entropy w; timers := v; inflight := inflight w;
     next_handle := next_handle w; trace := trace w |}.
Definition with_inflight v w :=
  {| state := state w; storage := storage w; clock := clock w;
     entropy := entropy w; timers := timers w; inflight := v;
     next_handle := next_handle w; trace := trace w |}.
Definition with_clock v w :=
  {| state := state w; storage := storage w; clock := v;
     entropy := entropy w; timers := timers w; inflight := inflight w;
     next_handle := next_handle w; trace := trace w |}.

(** *** A state monad over the world *)

Definition M (A : Type) : Type := World -> A * World.

Definition ret {A} (a : A) : M A := fun w => (a, w).
Definition bind {A B} (m : M A) (k : A -> M B) : M B :=
  fun w => let '(a, w') := m w in k a w'.
Definition read {A} (f : World -> A) : M A := fun w => (f w, w).
Definition modify (f : World -> World) : M unit := fun w => (tt, f w).
Definition exec {A} (m : M A) (w : World) : World := snd (m w).
Definition eval {A} (m : M A) (w : World) : A := fst (m w).

Declare Scope hook_scope.
Delimit Scope hook_scope with hook.
Notation "x <- m ;; k" := (bind m (fun x => k))
  (at level 20, m at level 99, k at level 200, only parsing) : hook_scope.
Notation "m ;; k" := (bind m (fun _ => k))
  (at level 100, k at level 200, only parsing, right associativity) : hook_scope.
Open Scope hook_scope.

Definition setStatus v : M unit := modify (with_state (set_status v)).
Definition setProgress v : M unit := modify (with_state (set_progress v)).
Definition setTracks v : M unit := modify (with_state (set_tracks v)).
Definition setError v : M unit := modify (with_state (set_error v)).
Definition setGenerationId v : M unit := modify (with_state (set_generationId v)).
Definition setCachedTracks (f : list CachedValue -> list CachedValue) : M unit :=
  modify (with_state (fun s => set_cachedTracks (f (cachedTracks s)) s)).

(** *** Timers, the remote service, AsyncStorage, the clock *)

Fixpoint lookup_handle {A} (h : nat) (l : list (nat * A)) : option A :=
  match l with
  | [] => None
  | (h', a) :: l' => if Nat.eqb h' h then Some a else lookup_handle h l'
  end.

Definition remove_handle {A} (h : nat) (l : list (nat * A)) : list (nat * A) :=
  List.filter (fun p => negb (Nat.eqb (fst p) h)) l.

(** [setTimeout(() => pollForCompletion(trackIds), pollInterval)]: the
    timer is recorded with the ids its closure holds; when it fires is
    left to the environment. *)
Definition setTimeout (trackIds : list string) : M nat :=
  fun w =>
    let h := next_handle w in
    (h, {| state := state w; storage := storage w; clock := clock w;
           entropy := entropy w; timers := timers w ++ [(h, trackIds)];
           inflight := inflight w; next_handle := S h; trace := trace w |}).

Definition clearTimeout (h : nat) : M unit :=
  modify (fun w => with_timers (remove_handle h (timers w)) w).

(** Send a request to the remote service and suspend on its reply. *)
Definition await (c : ApiCall) (k : Pending) : M unit :=
  modify (fun w =>
    let h := next_handle w in
    {| state := state w; storage := storage w; clock := clock w;
       entropy := entropy w; timers := timers w;
       inflight := inflight w ++ [(h, k)]; next_handle := S h;
       trace := trace w ++ [Remote c] |}).

Definition getItem (key : string) : M (option StoredValue) :=
  read (fun w => storage w !! key).
Definition setItem (key : string) (v : StoredValue) : M unit :=
  modify (with_storage (insert key v) (SetItem key v)).
Definition removeItem (key : string) : M unit :=
  modify (with_storage (delete key) (RemoveItem key)).
Definition getAllKeys : M (list string) :=
  read (fun w => (map_to_list (storage w)).*1).
Definition multiGet (keys : list string)
    : M (list (string * option StoredValue)) :=
  read (fun w => map (fun k => (k, storage w !! k)) keys).
Definition multiRemove (keys : list string) : M unit :=
  modify (fun w => foldl (fun w k => with_storage (delete k) (RemoveItem k) w) w keys).

Definition Date_now : M Z := read clock.
Definition Math_random : M N :=
  fun w => match entropy w with
           | [] => (0%N, w)
           | r :: rest => (r, with_entropy rest w)
           end.

(** *** The track cache *)

Definition getCacheKey (trackId : string) : string :=
  CACHE_KEY_PREFIX +:+ trackId.

Definition expiryTime (cachedAt : Z) : Z :=
  (cachedAt + CACHE_EXPIRY_HOURS * 60 * 60 * 1000)%Z.

(** [cachedAt] is given by the time [new Date(cachedAt)] holds, [None]
    for an invalid date: every comparison with NaN is false. *)
Definition isCacheExpired (cachedAt : option Z) : M bool :=
  t <- Date_now ;;
  ret match cachedAt with
      | Some cacheTime => (expiryTime cacheTime <? t)%Z
      | None => false
      end.

(** The [catch] of [getCachedTrack] is reached when [JSON.parse] (or
    the read of [cached_at] on what it returned) throws: the entry is
    left where it is. *)
Definition getCachedTrack (trackId : string) : M (option CachedValue) :=
  cached <- getItem (getCacheKey trackId) ;;
  match cached with
  | None => ret None
  | Some text =>
      if negb (value_truthy text) then ret None
      else
        match JSON_parse text with
        | None => ret None
        | Some cachedTrack =>
            expired <- isCacheExpired (time_of cachedTrack) ;;
            if expired
            then (removeItem (getCacheKey trackId) ;; ret None)
            else ret (Some cachedTrack)
        end
  end.

(** [t.id === track.id], on whatever the list holds. *)
Definition same_id (trackId : string) (c : CachedValue) : bool :=
  match id_of c with
  | Some i => String.eqb i trackId
  | None => false
  end.

Definition cacheTrack (cfg : Options) (track : SunoTrack) : M unit :=
  t <- Date_now ;;
  r <- Math_random ;;
  let cachedTrack :=
    {| cached_track := track; cached_at := t; local_id := (t, r) |} in
  setItem (getCacheKey (track_id track)) (JSON_stringify cachedTrack) ;;
  setCachedTracks (fun prev =>
    let updated :=
      Entry cachedTrack :: List.filter (fun c => negb (same_id (track_id track) c)) prev in
    take (maxCachedTracks cfg) updated).

Definition clearCache : M unit :=
  keys <- getAllKeys ;;
  let trackKeys := List.filter (String.prefix CACHE_KEY_PREFIX) keys in
  multiRemove trackKeys ;;
  setCachedTracks (fun _ => []).

(** The [for] loop of [refreshCachedTracks] over the pairs that
    [multiGet] returned. *)
Fixpoint collectValid (cachedItems : list (string * option StoredValue))
    : M (list CachedValue) :=
  match cachedItems with
  | [] => ret []
  | (key, value) :: rest =>
      match value with
      | None => collectValid rest
      | Some text =>
          if value_truthy text then
            match JSON_parse text with
            | Some cachedTrack =>
                expired <- isCacheExpired (time_of cachedTrack) ;;
                if expired
                then (removeItem key ;; collectValid rest)
                else (validTracks <- collectValid rest ;;
                      ret (cachedTrack :: validTracks))
            | None => removeItem key ;; collectValid rest
            end
          else collectValid rest
      end
  end.

(** The comparator [(a, b) => new Date(b.cached_at).getTime() -
    new Date(a.cached_at).getTime()]; [None] is NaN. *)
Definition by_newest (a b : CachedValue) : option Z :=
  match time_of b, time_of a with
  | Some tb, Some ta => Some (tb - ta)%Z
  | _, _ => None
  end.

(** [Array.prototype.sort] with that comparator: a stable sort, newest
    first; [x] goes before the first element it does not compare greater
    than, and a comparison that gives NaN counts as 0.  With a value
    that has no time in the array the comparator is not consistent and
    the order is the implementation's choice, of which this is one. *)
Fixpoint insert_newest (x : CachedValue) (l : list CachedValue) : list CachedValue :=
  match l with
  | [] => [x]
  | y :: l' =>
      if (default 0 (by_newest x y) <=? 0)%Z then x :: y :: l'
      else y :: insert_newest x l'
  end.

Fixpoint sort_newest_first (l : list CachedValue) : list CachedValue :=
  match l with
  | [] => []
  | x :: l' => insert_newest x (sort_newest_first l')
  end.

Definition refreshCachedTracks (cfg : Options) : M unit :=
  keys <- getAllKeys ;;
  let trackKeys := List.filter (String.prefix CACHE_KEY_PREFIX) keys in
  cachedItems <- multiGet trackKeys ;;
  validTracks <- collectValid cachedItems ;;
  setCachedTracks (fun _ =>
    take (maxCachedTracks cfg) (sort_newest_first validTracks)).

(** *** Polling *)

Definition timeout_message : string := "Generation timed out. Please try again.".

Definition completedCount (updatedTracks : list SunoTrack) : nat :=
  length (List.filter is_terminal updatedTracks).

(** [Math.min((completedCount / length) * 100, 100)].  On an empty
    list the source computes NaN; every track of an empty list is
    terminal, so that value is overwritten by 100 before anything can
    read it. *)
Definition newProgress (updatedTracks : list SunoTrack) : Q :=
  Qmin ((inject_Z (Z.of_nat (completedCount updatedTracks))
         / inject_Z (Z.of_nat (length updatedTracks))) * 100)%Q 100%Q.

Fixpoint cacheAll (cfg : Options) (completedTracks : list SunoTrack) : M unit :=
  match completedTracks with
  | [] => ret tt
  | track :: rest => cacheTrack cfg track ;; cacheAll cfg rest
  end.

(** [pollForCompletion] up to its [await]. *)
Definition pollForCompletion (cfg : Options) (trackIds : list string) : M unit :=
  attempts <- read (fun w => pollAttemptsRef (state w)) ;;
  if Nat.leb (maxPollAttempts cfg) attempts then
    setError (Some timeout_message) ;;
    setStatus failed
  else
    await (CallGetTracks trackIds) (AwaitPoll trackIds).

(** [pollForCompletion] from the reply of [sunoApi.getTracks] on.
    Nothing in it throws ([getTracks] resolves, [cacheTrack] catches),
    so its [catch] block has no counterpart here. *)
Definition pollForCompletion_resume (cfg : Options) (trackIds : list string)
    (response : SunoApiResponse (list SunoTrack)) : M unit :=
  match error response with
  | Some e =>
      setError (Some (message e)) ;;
      setStatus failed
  | None =>
      let updatedTracks := default [] (default None (data response)) in
      setTracks updatedTracks ;;
      setProgress (newProgress updatedTracks) ;;
      if forallb is_terminal updatedTracks then
        setStatus completed ;;
        setProgress 100%Q ;;
        cacheAll cfg (List.filter is_complete updatedTracks)
      else
        modify (with_state (fun s =>
          set_pollAttemptsRef (S (pollAttemptsRef s)) s)) ;;
        h <- setTimeout trackIds ;;
        modify (with_state (set_pollTimeoutRef (Some h)))
  end.

(** *** Submitting *)

Definition generateMusic (prompt : string) (options : GenerationOptions) : M unit :=
  setStatus generating ;;
  setError None ;;
  setProgress 0%Q ;;
  setTracks [] ;;
  modify (with_state (set_pollAttemptsRef 0)) ;;
  await (CallGenerateMusic prompt options) AwaitGenerateMusic.

(** The part shared by the continuations of [generateMusic] and
    [extendTrack], which differ in the text of one message. *)
Definition submitted_resume (cfg : Options) (no_data : string)
    (response : SunoApiResponse GenerationResponse) : M unit :=
  match error response with
  | Some e =>
      setError (Some (message e)) ;;
      setStatus failed
  | None =>
      match default None (data response) with
      | None =>
          setError (Some no_data) ;;
          setStatus failed
      | Some generation =>
          setGenerationId (Some (generation_id generation)) ;;
          setTracks (clips generation) ;;
          setStatus polling ;;
          setProgress 10%Q ;;
          if autoStartPolling cfg then
            pollForCompletion cfg (map track_id (clips generation))
          else ret tt
      end
  end.

Definition generateMusic_resume (cfg : Options)
    (response : SunoApiResponse GenerationResponse) : M unit :=
  submitted_resume cfg "No generation data received" response.

Definition extendTrack (trackId prompt : string) (options : ExtendOptions) : M unit :=
  setStatus generating ;;
  setError None ;;
  setProgress 0%Q ;;
  await (CallExtendTrack trackId prompt options) AwaitExtendTrack.

Definition extendTrack_resume (cfg : Options)
    (response : SunoApiResponse ExtendTrackResponse) : M unit :=
  submitted_resume cfg "No extension data received" response.

(** *** Looking a track up *)

Inductive Lookup :=
| Found (c : CachedValue)
| Fetching.

(** [if (cached) return cached]: what the lookup found is returned
    unless it is falsy ([null], or a stored value such as 0). *)
Definition getTrack (trackId : string) : M Lookup :=
  cached <- getCachedTrack trackId ;;
  match cached with
  | Some c =>
      if is_truthy c then ret (Found c)
      else await (CallGetTrack trackId) (AwaitGetTrack trackId) ;; ret Fetching
  | None => await (CallGetTrack trackId) (AwaitGetTrack trackId) ;; ret Fetching
  end.

Definition getTrack_resume (cfg : Options) (trackId : string)
    (response : SunoApiResponse (list SunoTrack)) : M (option SunoTrack) :=
  match error response with
  | Some e =>
      setError (Some (message e)) ;;
      ret None
  | None =>
      let tracks := default [] (default None (data response)) in
      let track := List.find (fun t => String.eqb (track_id t) trackId) tracks in
      match track with
      | Some t =>
          (if is_complete t then cacheTrack cfg t else ret tt) ;;
          ret (Some t)
      | None => ret None
      end
  end.

(** *** Cancelling *)

Definition cancelGeneration_finish : M unit :=
  setStatus idle ;;
  setProgress 0%Q ;;
  setGenerationId None.

(** Timer handles are never 0, so a handle in the ref is truthy; the
    empty generation id is falsy. *)
Definition cancelGeneration : M unit :=
  ref <- read (fun w => pollTimeoutRef (state w)) ;;
  match ref with
  | Some h =>
      clearTimeout h ;;
      modify (with_state (set_pollTimeoutRef None))
  | None => ret tt
  end ;;
  gid <- read (fun w => generationId (state w)) ;;
  match gid with
  | Some g =>
      if truthy g
      then await (CallCancelGeneration g) AwaitCancel
      else cancelGeneration_finish
  | None => cancelGeneration_finish
  end.

Definition clearError : M unit := setError None.
Definition clearTracks : M unit := setTracks [].

(** *** Lyrics *)

(** [generateLyrics] from the reply of [sunoApi.generateLyrics] on; up
    to its [await] the function only sends the request.
    [response.data?.text || null]: no data, null data and the empty text
    all give [null]. *)
Definition generateLyrics_resume (response : SunoApiResponse LyricsResponse)
    : M (option string) :=
  match error response with
  | Some e =>
      setError (Some (message e)) ;;
      ret None
  | None =>
      ret match default None (data response) with
          | Some lyrics =>
              if truthy (lyrics_text lyrics) then Some (lyrics_text lyrics) else None
          | None => None
          end
  end.

(** *** Events *)

Inductive Reply :=
| GenerationReply (r : SunoApiResponse GenerationResponse)
| TracksReply (r : SunoApiResponse (list SunoTrack))
| CancelReply.

Inductive Event :=
| Calls_generateMusic (prompt : string) (options : GenerationOptions)
| Calls_extendTrack (trackId prompt : string) (options : ExtendOptions)
| Calls_getTrack (trackId : string)
| Calls_cancelGeneration
| Calls_clearError
| Calls_clearTracks
| Calls_clearCache
| Calls_refreshCachedTracks
| TimerFires (h : nat)
| Resolves (h : nat) (r : Reply)
| Elapses (ms : Z).

Definition resume (cfg : Options) (k : Pending) (r : Reply) : option (M unit) :=
  match k, r with
  | AwaitGenerateMusic, GenerationReply resp => Some (generateMusic_resume cfg resp)
  | AwaitExtendTrack, GenerationReply resp => Some (extendTrack_resume cfg resp)
  | AwaitPoll trackIds, TracksReply resp =>
      Some (pollForCompletion_resume cfg trackIds resp)
  | AwaitGetTrack trackId, TracksReply resp =>
      Some (getTrack_resume cfg trackId resp ;; ret tt)
  | AwaitCancel, _ => Some cancelGeneration_finish
  | _, _ => None
  end.

(** One event; [None] when the event cannot happen in this world (no
    such timer, no such request, a reply of the wrong shape, time
    running backwards). *)
Definition step (cfg : Options) (e : Event) (w : World) : option World :=
  match e with
  | Calls_generateMusic prompt options => Some (exec (generateMusic prompt options) w)
  | Calls_extendTrack trackId prompt options =>
      Some (exec (extendTrack trackId prompt options) w)
  | Calls_getTrack trackId => Some (exec (getTrack trackId) w)
  | Calls_cancelGeneration => Some (exec cancelGeneration w)
  | Calls_clearError => Some (exec clearError w)
  | Calls_clearTracks => Some (exec clearTracks w)
  | Calls_clearCache => Some (exec clearCache w)
  | Calls_refreshCachedTracks => Some (exec (refreshCachedTracks cfg) w)
  | TimerFires h =>
      match lookup_handle h (timers w) with
      | Some trackIds =>
          Some (exec (pollForCompletion cfg trackIds)
                  (with_timers (remove_handle h (timers w)) w))
      | None => None
      end
  | Resolves h r =>
      match lookup_handle h (inflight w) with
      | Some k =>
          match resume cfg k r with
          | Some m => Some (exec m (with_inflight (remove_handle h (inflight w)) w))
          | None => None
          end
      | None => None
      end
  | Elapses ms =>
      if (0 <=? ms)%Z then Some (with_clock (clock w + ms)%Z w) else None
  end.

Fixpoint run (cfg : Options) (es : list Event) (w : World) : option World :=
  match es with
  | [] => Some w
  | e :: es' =>
      match step cfg e w with
      | Some w' => run cfg es' w'
      | None => None
      end
  end.

End Hook.

(** ** The screens that use the hook ([components/MusicGenerationForm],
       [components/RecentGenerations]) *)

Module Screens.

(** [handleGenreToggle] and [handleMoodToggle]: the update applied to
    the list of selected chips. *)
Definition toggle (item : string) (prev : list string) : list string :=
  if existsb (String.eqb item) prev
  then List.filter (fun g => negb (String.eqb g item)) prev
  else prev ++ [item].

Definition handleGenreToggle := toggle.
Definition handleMoodToggle := toggle.

(** [Array.prototype.sort] with a comparator: a stable sort; [x] goes
    before the first element it does not compare greater than. *)
Fixpoint insert_by {A} (cmp : A -> A -> Z) (x : A) (l : list A) : list A :=
  match l with
  | [] => [x]
  | y :: l' => if (cmp x y <=? 0)%Z then x :: y :: l' else y :: insert_by cmp x l'
  end.

Fixpoint sort_by {A} (cmp : A -> A -> Z) (l : list A) : list A :=
  match l with
  | [] => []
  | x :: l' => insert_by cmp x (sort_by cmp l')
  end.

Inductive SortBy := newest | oldest | by_title.

Definition title_or_untitled (c : CachedTrack) : string :=
  js_or (Some (track_title (cached_track c))) "Untitled".

(** [sortTracks] of [RecentGenerations]; [localeCompare] is the
    platform's comparison of strings. *)
Definition sortTracks (localeCompare : string -> string -> Z) (sortBy : SortBy)
    (tracks : list CachedTrack) : list CachedTrack :=
  match sortBy with
  | newest => sort_by (fun a b => cached_at b - cached_at a)%Z tracks
  | oldest => sort_by (fun a b => cached_at a - cached_at b)%Z tracks
  | by_title =>
      sort_by (fun a b => localeCompare (title_or_untitled a) (title_or_untitled b))
        tracks
  end.

End Screens.

(** ** Vocabulary of the properties *)

Import Hook.

Definition DAY_MS : Z := 86400000.

(** The calls to the remote service among the effects of a run. *)
Fixpoint remote_calls (tr : list Effect) : list ApiCall :=
  match tr with
  | [] => []
  | Remote c :: tr' => c :: remote_calls tr'
  | _ :: tr' => remote_calls tr'
  end.

(** The tracks written to the cache among the effects of a run, with
    the key each was written under. *)
Fixpoint written (tr : list Effect) : list (string * SunoTrack) :=
  match tr with
  | [] => []
  | SetItem key (Serialized (Entry c)) :: tr' => (key, cached_track c) :: written tr'
  | _ :: tr' => written tr'
  end.

Definition cache_entry (t : SunoTrack) : string * SunoTrack :=
  (getCacheKey (track_id t), t).

(** A reply that carries [v] and no error. *)
Definition ok_response {T} (v : T) : SunoApiResponse T :=
  {| data := Some (Some v); error := None |}.

(** The in-memory list is ordered newest first: its values bear a time
    and none is older than one that follows it. *)
Definition newer_or_same (a b : CachedValue) : Prop :=
  match time_of a, time_of b with
  | Some ta, Some tb => (tb <= ta)%Z
  | _, _ => False
  end.

Definition newest_first (l : list CachedValue) : Prop :=
  StronglySorted newer_or_same l.

(** The value bears a time, which is not after [t]. *)
Definition stamped_by (t : Z) (v : CachedValue) : Prop :=
  match time_of v with
  | Some cachedAt => (cachedAt <= t)%Z
  | None => False
  end.

(** More than 24 hours have passed at [t] since the time the value
    bears; a value that bears none is never expired. *)
Definition expired (t : Z) (v : CachedValue) : Prop :=
  match time_of v with
  | Some cachedAt => (DAY_MS < t - cachedAt)%Z
  | None => False
  end.

Definition unexpired (t : Z) (v : CachedValue) : Prop :=
  match time_of v with
  | Some cachedAt => (t - cachedAt <= DAY_MS)%Z
  | None => True
  end.

Definition is_expired (t : Z) (v : CachedValue) : bool :=
  match time_of v with
  | Some cachedAt => (expiryTime cachedAt <? t)%Z
  | None => false
  end.

(** The entry that [cacheTrack] builds for [track] in world [w]. *)
Definition fresh_entry (track : SunoTrack) (w : World) : CachedTrack :=
  {| cached_track := track; cached_at := clock w;
     local_id := (clock w, hd 0%N (entropy w)) |}.

(** What the loop of [refreshCachedTracks] does with one pair returned
    by [multiGet] at time [t]: the entry it keeps, and whether it removes
    the key. *)
Definition keeps (t : Z) (item : string * option StoredValue) : option CachedValue :=
  match snd item with
  | Some (Serialized v) => if is_expired t v then None else Some v
  | _ => None
  end.

Definition purges (t : Z) (item : string * option StoredValue) : bool :=
  match snd item with
  | Some (Serialized v) => is_expired t v
  | Some Unreadable => true
  | Some EmptyText | None => false
  end.

Definition drop_key (w : World) (key : string) : World :=
  with_storage (delete key) (RemoveItem key) w.

Definition in_namespace (key : string) : bool :=
  String.prefix CACHE_KEY_PREFIX key.

(** Sample data. *)
Definition sample_track (i : string) (st : TrackStatus) : SunoTrack :=
  {| track_id := i; track_title := "Summer";
     audio_url := match st with
                  | complete => Some ("https://cdn.suno.ai/" +:+ i +:+ ".mp3")
                  | _ => None
                  end;
     track_status := st |}.

Definition no_options : GenerationOptions :=
  {| opt_model := None; opt_make_instrumental := None; opt_wait_audio := None;
     opt_tags := None; opt_title := None |}.

Definition no_extend_options : ExtendOptions :=
  {| continueAt := None; ext_tags := None; ext_title := None;
     makeInstrumental := None |}.




(** What the cache operations and [getTrack] leave untouched: all of
    the lifecycle but the error message and the cached list. *)
Record cache_only (w w' : World) : Prop := {
  co_status : status (state w') = status (state w);
  co_progress : progress (state w') = progress (state w);
  co_tracks : tracks (state w') = tracks (state w);
  co_generationId : generationId (state w') = generationId (state w);
  co_ref : pollTimeoutRef (state w') = pollTimeoutRef (state w);
  co_attempts : pollAttemptsRef (state w') = pollAttemptsRef (state w);
  co_timers : timers w' = timers w;
  co_inflight : inflight w' = inflight w;
  co_next : next_handle w' = next_handle w;
  co_clock : clock w' = clock w;
  co_remote : remote_calls (trace w') = remote_calls (trace w)
}.

(** The transport outcome itself brings the text [m]: as the message of
    the error it rejects with, or as the [message] or [error] member of
    the body of a non-2xx reply. *)
Definition supplies {T} (m : string) (o : SunoApi.FetchOutcome T) : Prop :=
  match o with
  | SunoApi.FetchRejected (SunoApi.ThrownError m')
  | SunoApi.JsonRejected _ _ (SunoApi.ThrownError m') => m' = m
  | SunoApi.HttpReply false _ (SunoApi.BodyValue _ bm be) => bm = Some m \/ be = Some m
  | _ => False
  end.

(** A generation of one track that never leaves [streaming]: the
    submission, its reply, then [n] rounds of a poll reply followed by
    the next timer.  Handles are handed out in order, starting from 1. *)
Definition streaming_reply : Reply :=
  TracksReply (ok_response [sample_track "a" streaming]).

Fixpoint poll_rounds (n h : nat) : list Event :=
  match n with
  | O => []
  | S n' => Resolves h streaming_reply :: TimerFires (S h) :: poll_rounds n' (S (S h))
  end.

Definition stalled_generation (n : nat) : list Event :=
  Calls_generateMusic "upbeat pop about summer" no_options
  :: Resolves 1 (GenerationReply
                   (ok_response {| generation_id := "g1";
                                   clips := [sample_track "a" queued] |}))
  :: poll_rounds n 2.

Definition extension_accepted (h : nat) : list Event :=
  [ Calls_extendTrack "a" "one more verse" no_extend_options;
    Resolves h (GenerationReply
                  (ok_response {| generation_id := "g2";
                                  clips := [sample_track "b" queued] |})) ].

Definition resubmission_accepted (h : nat) : list Event :=
  [ Calls_generateMusic "one more verse" no_options;
    Resolves h (GenerationReply
                  (ok_response {| generation_id := "g2";
                                  clips := [sample_track "b" queued] |})) ].

Definition fresh_world : World := initial_world ∅ 0.

(** A submission was accepted: the reply has no error and its data is
    not null. *)
Definition accepted (response : SunoApiResponse GenerationResponse) : Prop :=
  error response = None /\ exists generation, data response = Some (Some generation).


(** Between two replies for the same batch, a track that was terminal
    stays terminal. *)
Definition stays_terminal (before after : SunoTrack) : Prop :=
  is_terminal before = true -> is_terminal after = true.

(** The scenario of two queued tracks: accepted, then polled once while
    both are streaming. *)
Definition two_tracks_accepted : list Event :=
  [ Calls_generateMusic "upbeat pop about summer" no_options;
    Resolves 1 (GenerationReply
                  (ok_response {| generation_id := "g1";
                                  clips := [sample_track "a" queued;
                                            sample_track "b" queued] |})) ].

Definition both_streaming : Event :=
  Resolves 2 (TracksReply
                (ok_response [sample_track "a" streaming; sample_track "b" streaming])).

(** Status [completed] is entered with progress 100. *)
Definition completes_at_100 (w w' : World) : Prop :=
  status (state w') = completed ->
  status (state w) = completed \/ progress (state w') = 100%Q.

(** Nothing of a generation is left to resume: the only requests in
    flight are lookups of single tracks and cancel notifications. *)
Definition quiet (k : Pending) : bool :=
  match k with
  | AwaitGetTrack _ | AwaitCancel => true
  | _ => false
  end.

Definition no_generation_in_flight (w : World) : Prop :=
  Forall (fun p => quiet (snd p) = true) (inflight w).

(** Every pending timer is the one the ref holds. *)
Definition timers_held_by_ref (w : World) : Prop :=
  Forall (fun p => pollTimeoutRef (state w) = Some (fst p)) (timers w).

(** Events that come from the environment rather than from the caller. *)
Definition environment (e : Event) : bool :=
  match e with
  | TimerFires _ | Resolves _ _ | Elapses _ => true
  | _ => false
  end.

(** The lifecycle did not move, or was reset by the cancellation. *)
Record halted (w w' : World) : Prop := {
  halted_tracks : tracks (state w') = tracks (state w);
  halted_status : status (state w') = status (state w) \/ status (state w') = idle;
  halted_progress :
    progress (state w') = progress (state w) \/ progress (state w') = 0%Q
}.

(** The scenario of a cancellation while a poll request is in flight:
    one track is accepted (request 1), the first poll goes out (request
    2), the caller cancels (notification 3, acknowledged), and then the
    reply to request 2 arrives. *)
Definition one_track_accepted : list Event :=
  [ Calls_generateMusic "upbeat pop about summer" no_options;
    Resolves 1 (GenerationReply
                  (ok_response {| generation_id := "g1";
                                  clips := [sample_track "a" queued] |})) ].

Definition cancelled : list Event :=
  [ Calls_cancelGeneration; Resolves 3 CancelReply ].

Definition late_reply (st : TrackStatus) : Event :=
  Resolves 2 (TracksReply (ok_response [sample_track "a" st])).

(** A world between two polls: one track accepted, the first poll
    answered while the track is streaming, the next poll scheduled. *)
Definition between_polls : World :=
  Eval vm_compute in
    default fresh_world
      (run default_options (one_track_accepted ++ [late_reply streaming]) fresh_world).

(** A world whose attempt counter has reached the default budget. *)
Definition budget_spent : World :=
  with_state (set_pollAttemptsRef 60) fresh_world.

(** Stores holding one entry for track "a", written at time 0. *)
Definition entry_a : CachedTrack :=
  {| cached_track := sample_track "a" complete; cached_at := 0;
     local_id := (0%Z, 7%N) |}.

Definition store_with_a : gmap string StoredValue :=
  {[ getCacheKey "a" := Serialized entry_a ]}.

(** One hour, and two days, after the entry was written. *)
Definition an_hour_later : World := initial_world store_with_a 3600000.

(** A world whose list holds the entry for "a", one hour on. *)
Definition listing_a : World :=
  with_state (set_cachedTracks [Entry entry_a]) an_hour_later.

(** An entry written for a track whose status is [complete], under the
    key of its id. *)
Definition complete_entry (kt : string * SunoTrack) : Prop :=
  is_complete (snd kt) = true /\ fst kt = getCacheKey (track_id (snd kt)).

Definition writes_only_complete (w w' : World) : Prop :=
  exists new, written (trace w') = written (trace w) ++ new /\ Forall complete_entry new.

(** The service holds a usable credential. *)
Definition credential (s : SunoApi.Service) (k : string) : Prop :=
  SunoApi.apiKey s = Some k /\ truthy k = true.

Definition no_credential (s : SunoApi.Service) : Prop :=
  SunoApi.apiKey s = None \/ SunoApi.apiKey s = Some "".

Definition no_api_key {T} : SunoApiResponse T :=
  SunoApi.error_response "NO_API_KEY" SunoApi.no_api_key_message None.

(** A service with a key, and one without. *)
Definition keyed_service : SunoApi.Service :=
  {| SunoApi.apiKey := Some "sk-test"; SunoApi.lastRequestTime := 0;
     SunoApi.now := 400; SunoApi.sent := [] |}.

Definition keyless_service : SunoApi.Service :=
  {| SunoApi.apiKey := None; SunoApi.lastRequestTime := 0;
     SunoApi.now := 400; SunoApi.sent := [] |}.

(** A cached track of a complete track, written no later than [t]. *)
Definition sound_entry (t : Z) (v : CachedValue) : Prop :=
  exists c, v = Entry c /\ is_complete (cached_track c) = true /\ (cached_at c <= t)%Z.

(** Every JSON value stored under a key of the cache's namespace is a
    cached track: it sits under the key of its own track id, is that of
    a complete track and was written no later than now. *)
Definition store_sound (w : World) : Prop :=
  forall key v,
    in_namespace key = true ->
    storage w !! key = Some (Serialized v) ->
    sound_entry (clock w) v /\ Some key = getCacheKey <$> id_of v.

(** The list is within its bound, newest first, of complete tracks
    written no later than now, one per track id. *)
Definition listing_sound (cfg : Options) (w : World) : Prop :=
  length (cachedTracks (state w)) <= maxCachedTracks cfg /\
  newest_first (cachedTracks (state w)) /\
  Forall (sound_entry (clock w)) (cachedTracks (state w)) /\
  NoDup (id_of <$> cachedTracks (state w)).

Definition cache_invariant (cfg : Options) (w : World) : Prop :=
  store_sound w /\ listing_sound cfg w.

(** One poll request is in flight, for [trackIds], and nothing else is
    pending. *)
Definition awaiting_poll (w : World) (h : nat) (trackIds : list string) : Prop :=
  inflight w = [(h, AwaitPoll trackIds)] /\ timers w = [] /\ next_handle w = S h.

(** The replies of a generation that stalls, each followed by the timer
    it schedules; [h] is the handle of the request in flight. *)
Fixpoint stalled_rounds (replies : list (list SunoTrack)) (h : nat) : list Event :=
  match replies with
  | [] => []
  | ts :: rest =>
      Resolves h (TracksReply (ok_response ts))
      :: TimerFires (S h) :: stalled_rounds rest (S (S h))
  end.

(** The world right after one track was accepted: the first poll is in
    flight. *)
Definition first_poll_in_flight : World :=
  Eval vm_compute in
    default fresh_world (run default_options one_track_accepted fresh_world).

(** A list ordered oldest first. *)
Definition oldest_first (l : list CachedTrack) : Prop :=
  StronglySorted (fun a b => (cached_at a <= cached_at b)%Z) l.

(** The world after one track was accepted and found complete by the
    first poll. *)
Definition completed_world : World :=
  Eval vm_compute in
    default fresh_world
      (run default_options (one_track_accepted ++ [late_reply complete]) fresh_world).

(** Sixty replies that find the track still streaming. *)
Definition sixty_stalled_replies : list (list SunoTrack) :=
  replicate 60 [sample_track "a" streaming].

(** A world in which a generation is known by its id. *)
Definition generation_known : World :=
  with_state (set_generationId (Some "g1")) fresh_world.

Definition lyrics_reply : SunoApiResponse LyricsResponse :=
  ok_response {| lyrics_text := "La la la"; lyrics_title := "Summer" |}.

Definition extension_b : ExtendTrackResponse :=
  {| generation_id := "g2"; clips := [sample_track "b" queued] |}.


(** The elements of the data of a response are tracks of a terminal
    status. *)
Definition terminal_element (e : SunoApi.TrackElement) : Prop :=
  exists t, e = SunoApi.ElementTrack t /\ is_terminal t = true.

Definition all_terminal (response : SunoApiResponse SunoApi.TracksBody) : Prop :=
  exists elements,
    SunoApi.data_or_empty response = SunoApi.TrackArray elements /\
    Forall terminal_element elements.

(** Replies to [getTracks]: a JSON object where the array is expected;
    an array whose second element is [null]; an array of one track. *)
Definition object_reply : SunoApi.FetchOutcome SunoApi.TracksBody :=
  SunoApi.HttpReply true 200 (SunoApi.BodyValue (SunoApi.NotAnArray true) None None).

Definition null_element_reply : SunoApi.FetchOutcome SunoApi.TracksBody :=
  SunoApi.HttpReply true 200
    (SunoApi.BodyValue
       (SunoApi.TrackArray [SunoApi.ElementTrack (sample_track "a" complete);
                            SunoApi.ElementNull]) None None).

Definition track_reply (st : TrackStatus) : SunoApi.FetchOutcome SunoApi.TracksBody :=
  SunoApi.HttpReply true 200
    (SunoApi.BodyValue
       (SunoApi.TrackArray [SunoApi.ElementTrack (sample_track "a" st)]) None None).




(** The order the sort leaves, whatever the values: no value stands
    right before one it compares greater than. *)
Definition not_after (a b : CachedValue) : Prop :=
  (default 0 (by_newest a b) <= 0)%Z.

Definition in_order (l : list CachedValue) : Prop := Sorted not_after l.


(** ** The remote-service wrapper resolves *)


(** Without a credential nothing goes out on the network. *)
Lemma makeRequest_without_key {T} endpoint options (o : SunoApi.FetchOutcome T) s :
  SunoApi.apiKey s = None ->
  SunoApi.makeRequest endpoint options o s
  = (SunoApi.error_response "NO_API_KEY" SunoApi.no_api_key_message None, s).
Proof. intros H. unfold SunoApi.makeRequest. now rewrite H. Qed.






(** C10 as stated fails: [pollTrackCompletion] throws to its caller when
    a 2xx reply to [getTracks] brings a JSON object where the array is
    expected, and when it brings an array in which [null] follows a
    complete track. *)
Lemma C10_pollTrackCompletion_throws :
  fst (SunoApi.pollTrackCompletion ["a"] 60 5000 (fun _ => object_reply) keyed_service)
  = SunoApi.RejectedTypeError /\
  fst (SunoApi.pollTrackCompletion ["a"] 60 5000 (fun _ => null_element_reply)
         keyed_service)
  = SunoApi.RejectedTypeError /\
  ~ (forall net, exists response,
        fst (SunoApi.pollTrackCompletion ["a"] 60 5000 net keyed_service)
        = SunoApi.Fulfilled response).
Proof.
  assert (H : fst (SunoApi.pollTrackCompletion ["a"] 60 5000 (fun _ => object_reply)
                     keyed_service) = SunoApi.RejectedTypeError)
    by (vm_compute; reflexivity).
  repeat apply conj; try (vm_compute; reflexivity).
  intros Hall. destruct (Hall (fun _ => object_reply)) as [response Hr].
  rewrite H in Hr. discriminate.
Qed.

(** ** The track cache: lookup *)

(** C9.  [getCachedTrack trackId] returns the entry stored under the
    track's key when its [cached_at] is at most 24 hours before the
    current time, and leaves the world as it was; when the entry is more
    than 24 hours old it removes the key from the store and returns
    nothing; when the key is absent it returns nothing; and in every
    case it sends nothing to the remote service. *)
Theorem C9_getCachedTrack_contract (trackId : string) (w : World) :
  let key := getCacheKey trackId in
  let r := eval (getCachedTrack trackId) w in
  let w' := exec (getCachedTrack trackId) w in
  (forall c : CachedTrack,
      storage w !! key = Some (Serialized c) ->
      (clock w - cached_at c <= DAY_MS)%Z ->
      r = Some (Entry c) /\ w' = w) /\
  (forall c : CachedTrack,
      storage w !! key = Some (Serialized c) ->
      (DAY_MS < clock w - cached_at c)%Z ->
      r = None /\ storage w' = delete key (storage w)) /\
  (storage w !! key = None -> r = None /\ w' = w) /\
  remote_calls (trace w') = remote_calls (trace w) /\
  inflight w' = inflight w.
Proof.
  cbv zeta. unfold eval, exec, getCachedTrack, bind, getItem, read, ret.
  split; [|split; [|split; [|split]]].
  - intros c Hc Hage. rewrite Hc. cbn.
    unfold expiryTime, CACHE_EXPIRY_HOURS, DAY_MS in *.
    destruct (Z.ltb_spec (cached_at c + 24 * 60 * 60 * 1000) (clock w)); [lia|].
    split; reflexivity.
  - intros c Hc Hage. rewrite Hc. cbn.
    unfold expiryTime, CACHE_EXPIRY_HOURS, DAY_MS in *.
    destruct (Z.ltb_spec (cached_at c + 24 * 60 * 60 * 1000) (clock w)); [|lia].
    split; reflexivity.
  - intros Hc. rewrite Hc. split; reflexivity.
  - destruct (storage w !! getCacheKey trackId) as [[v| |]|]; cbn;
      try reflexivity.
    destruct (time_of v) as [t|]; [|reflexivity].
    destruct (expiryTime t <? clock w)%Z; cbn; [|reflexivity].
    induction (trace w) as [|[]]; cbn; congruence.
  - destruct (storage w !! getCacheKey trackId) as [[v| |]|]; cbn;
      try reflexivity.
    destruct (time_of v) as [t|]; [|reflexivity].
    destruct (expiryTime t <? clock w)%Z; reflexivity.
Qed.

(** ** The track cache: insertion *)

Lemma cacheTrack_exec cfg track w :
  exec (cacheTrack cfg track) w
  = with_state
      (set_cachedTracks
         (take (maxCachedTracks cfg)
            (Entry (fresh_entry track w)
             :: List.filter (fun c => negb (same_id (track_id track) c))
                  (cachedTracks (state w)))))
      (with_storage (insert (getCacheKey (track_id track))
                       (Serialized (fresh_entry track w)))
         (SetItem (getCacheKey (track_id track)) (Serialized (fresh_entry track w)))
         (with_entropy (tl (entropy w)) w)).
Proof.
  unfold exec, cacheTrack, bind, Date_now, Math_random, read, setItem,
    setCachedTracks, modify, fresh_entry, JSON_stringify.
  destruct w as [st sto clk [|r rest] tm inf nh tr]; reflexivity.
Qed.

Lemma newest_first_filter (f : CachedValue -> bool) l :
  newest_first l -> newest_first (List.filter f l).
Proof.
  unfold newest_first. induction 1 as [|x l Hl IH Hx]; cbn.
  - constructor.
  - destruct (f x); [|exact IH].
    constructor; [exact IH|].
    rewrite List.Forall_forall in *. intros y Hy.
    apply List.filter_In in Hy. apply Hx, Hy.
Qed.

Lemma newest_first_take n l : newest_first l -> newest_first (take n l).
Proof.
  unfold newest_first. intros H. revert n.
  induction H as [|x l Hl IH Hx]; intros [|n]; cbn; try constructor.
  - apply IH.
  - now apply Forall_take.
Qed.

Lemma filter_none {A} (f : A -> bool) l :
  Forall (fun x => f x = false) l -> List.filter f l = [].
Proof.
  induction 1 as [|x l Hx _ IH]; cbn; [reflexivity|]. now rewrite Hx.
Qed.

Lemma filter_all {A} (f : A -> bool) l :
  Forall (fun x => f x = true) l -> List.filter f l = l.
Proof.
  induction 1 as [|x l Hx _ IH]; cbn; [reflexivity|]. rewrite Hx. now f_equal.
Qed.

Lemma filter_rejects {A} (f : A -> bool) l :
  Forall (fun x => f x = false) (List.filter (fun x => negb (f x)) l).
Proof.
  induction l as [|x l IH]; cbn; [constructor|].
  destruct (f x) eqn:Hx; cbn; [exact IH|]. constructor; assumption.
Qed.

Lemma filter_length_lt {A} (f : A -> bool) l :
  Exists (fun x => f x = true) l ->
  length (List.filter (fun x => negb (f x)) l) < length l.
Proof.
  induction 1 as [x l Hx|x l _ IH]; cbn.
  - rewrite Hx. cbn. pose proof (List.filter_length_le (fun x => negb (f x)) l). lia.
  - destruct (negb (f x)); cbn; [lia|].
    pose proof (List.filter_length_le (fun x => negb (f x)) l). lia.
Qed.

(** C7.  In a cache list that is ordered newest first and holds no
    timestamp later than the clock, with a positive bound
    [maxCachedTracks]: after [cacheTrack] the list holds at most
    [maxCachedTracks] entries, still ordered newest first, with the new
    entry at the front and no other entry of the same remote id (a
    re-put replaces the prior entry and moves it to the front); when the
    list was full and the id new, the entry dropped is the last one,
    whose [cached_at] is the oldest; a re-put into a list within its
    bound drops nothing but the prior entry. *)
Theorem C7_cacheTrack_retention (cfg : Options) (track : SunoTrack) (w : World) :
  let prev := cachedTracks (state w) in
  let entry := Entry (fresh_entry track w) in
  let new := cachedTracks (state (exec (cacheTrack cfg track) w)) in
  0 < maxCachedTracks cfg ->
  newest_first prev ->
  Forall (stamped_by (clock w)) prev ->
  length new <= maxCachedTracks cfg /\
  newest_first new /\
  head new = Some entry /\
  List.filter (same_id (track_id track)) new = [entry] /\
  (length prev = maxCachedTracks cfg ->
   Forall (fun c => same_id (track_id track) c = false) prev ->
   exists kept oldest,
     prev = kept ++ [oldest] /\ new = entry :: kept /\
     Forall (fun c => newer_or_same c oldest) prev) /\
  (length prev <= maxCachedTracks cfg ->
   Exists (fun c => same_id (track_id track) c = true) prev ->
   new = entry :: List.filter (fun c => negb (same_id (track_id track) c)) prev).
Proof.
  cbv zeta. intros Hpos Hsorted Hclock.
  rewrite cacheTrack_exec. cbn [state with_state set_cachedTracks cachedTracks].
  set (entry := Entry (fresh_entry track w)).
  set (prev := cachedTracks (state w)) in *.
  set (others := List.filter (fun c => negb (same_id (track_id track) c)) prev).
  destruct (maxCachedTracks cfg) as [|m] eqn:Hmax; [lia|].
  cbn [take].
  assert (Hsorted' : newest_first (entry :: others)).
  { constructor.
    - now apply newest_first_filter.
    - rewrite List.Forall_forall in *. intros c Hc.
      apply List.filter_In in Hc as [Hc _]. apply Hclock in Hc.
      unfold stamped_by in Hc. unfold newer_or_same. cbn.
      destruct (time_of c); [exact Hc | contradiction]. }
  repeat apply conj.
  - cbn. rewrite length_take. lia.
  - change (entry :: take m others) with (take (S m) (entry :: others)).
    now apply newest_first_take.
  - reflexivity.
  - cbn. unfold same_id at 1. cbn. rewrite String.eqb_refl. f_equal.
    apply filter_none, Forall_take, filter_rejects.
  - intros Hfull Hnew.
    assert (Hothers : others = prev).
    { unfold others. apply filter_all.
      eapply List.Forall_impl; [|exact Hnew]. cbn. intros c ->. reflexivity. }
    rewrite Hothers.
    destruct (List.exists_last (l := prev)) as (kept & oldest & Hprev).
    { intros Hnil. rewrite Hnil in Hfull. discriminate. }
    exists kept, oldest. split; [exact Hprev|]. split.
    + f_equal. rewrite Hprev. apply take_app_length'.
      rewrite Hprev, length_app in Hfull. cbn in Hfull. lia.
    + unfold newest_first in Hsorted. rewrite Hprev in Hsorted, Hclock |- *.
      apply Forall_app. split.
      * rewrite List.Forall_forall. intros c Hc.
        apply (StronglySorted_app_1_elem_of _ _ _ c oldest Hsorted);
          [now apply list_elem_of_In | left].
      * constructor; [|constructor].
        apply Forall_app in Hclock as [_ Hlast].
        apply Forall_cons in Hlast as [Hlast _].
        unfold stamped_by in Hlast. unfold newer_or_same.
        destruct (time_of oldest); [lia | contradiction].
  - intros Hbound Hdup. f_equal. apply take_ge.
    pose proof (filter_length_lt (same_id (track_id track)) prev Hdup).
    fold others in H. lia.
Qed.

(** ** The track cache: listing *)

Lemma collected_cons t w (item : string * option StoredValue) rest :
  (omap (keeps t) (item :: rest),
   foldl drop_key w (List.filter (purges t) (item :: rest)).*1)
  = (match keeps t item with
     | Some c => c :: omap (keeps t) rest
     | None => omap (keeps t) rest
     end,
     foldl drop_key (if purges t item then drop_key w (fst item) else w)
       (List.filter (purges t) rest).*1).
Proof. cbn. destruct (keeps t item), (purges t item); reflexivity. Qed.

Lemma isCacheExpired_run cachedAt w :
  isCacheExpired cachedAt w
  = (match cachedAt with
     | Some cacheTime => (expiryTime cacheTime <? clock w)%Z
     | None => false
     end, w).
Proof. reflexivity. Qed.

Lemma getCachedTrack_run trackId w :
  getCachedTrack trackId w
  = match storage w !! getCacheKey trackId with
    | Some (Serialized v) =>
        if is_expired (clock w) v
        then (None, drop_key w (getCacheKey trackId))
        else (Some v, w)
    | _ => (None, w)
    end.
Proof.
  unfold getCachedTrack, bind, getItem, read, ret.
  destruct (storage w !! getCacheKey trackId) as [[v| |]|]; cbn; try reflexivity.
  unfold is_expired. destruct (time_of v) as [t|]; [|reflexivity].
  destruct (expiryTime t <? clock w)%Z; reflexivity.
Qed.

Lemma collectValid_run items : forall w,
  collectValid items w
  = (omap (keeps (clock w)) items,
     foldl drop_key w (List.filter (purges (clock w)) items).*1).
Proof.
  induction items as [|[key value] rest IH]; intros w; [reflexivity|].
  rewrite collected_cons. unfold keeps at 1, purges at 1. cbn [fst snd].
  cbn [collectValid].
  destruct value as [[v| |]|]; cbn [value_truthy JSON_parse].
  - unfold bind at 1. rewrite isCacheExpired_run. fold (is_expired (clock w) v).
    destruct (is_expired (clock w) v) eqn:Hexp.
    + unfold bind, removeItem, modify. rewrite IH. reflexivity.
    + unfold bind, ret. rewrite IH. reflexivity.
  - apply IH.
  - unfold bind, removeItem, modify. rewrite IH. reflexivity.
  - apply IH.
Qed.

Lemma drop_keys_storage keys : forall w key,
  storage (foldl drop_key w keys) !! key
  = if bool_decide (key ∈ keys) then None else storage w !! key.
Proof.
  induction keys as [|k keys IH]; intros w key; cbn [foldl].
  - reflexivity.
  - rewrite IH. cbn [drop_key with_storage storage].
    destruct (decide (key = k)) as [->|Hne].
    + rewrite lookup_delete_eq.
      rewrite (bool_decide_eq_true_2 (k ∈ k :: keys)) by left.
      now destruct (bool_decide (k ∈ keys)).
    + rewrite lookup_delete_ne by congruence.
      destruct (bool_decide_reflect (key ∈ keys)) as [Hin|Hnin].
      * now rewrite bool_decide_eq_true_2 by now right.
      * rewrite bool_decide_eq_false_2; [reflexivity|].
        rewrite elem_of_cons. tauto.
Qed.

Lemma drop_keys_frame keys : forall w,
  state (foldl drop_key w keys) = state w /\
  clock (foldl drop_key w keys) = clock w /\
  timers (foldl drop_key w keys) = timers w /\
  inflight (foldl drop_key w keys) = inflight w /\
  trace (foldl drop_key w keys) = trace w ++ map RemoveItem keys.
Proof.
  induction keys as [|k keys IH]; intros w; cbn [foldl map].
  - now rewrite app_nil_r.
  - destruct (IH (drop_key w k)) as (-> & -> & -> & -> & ->). cbn.
    now rewrite <- app_assoc.
Qed.

Lemma insert_newest_elem x l c : c ∈ insert_newest x l <-> c = x \/ c ∈ l.
Proof.
  induction l as [|y l IH]; cbn.
  - rewrite !elem_of_cons. tauto.
  - destruct (default 0 (by_newest x y) <=? 0)%Z.
    + rewrite !elem_of_cons. tauto.
    + rewrite !elem_of_cons, IH. tauto.
Qed.

Lemma sort_newest_first_elem l c : c ∈ sort_newest_first l <-> c ∈ l.
Proof.
  induction l as [|x l IH]; cbn; [reflexivity|].
  rewrite insert_newest_elem, elem_of_cons, IH. tauto.
Qed.

(** Between values that bear a time the comparator is the difference
    of the times. *)
Lemma by_newest_times x y tx ty :
  time_of x = Some tx -> time_of y = Some ty ->
  (default 0 (by_newest x y) <=? 0)%Z = (ty <=? tx)%Z.
Proof.
  intros Hx Hy. unfold by_newest. rewrite Hx, Hy. cbn.
  destruct (Z.leb_spec (ty - tx) 0), (Z.leb_spec ty tx); try reflexivity; lia.
Qed.

Lemma newer_or_same_times x y tx ty :
  time_of x = Some tx -> time_of y = Some ty ->
  newer_or_same x y <-> (ty <= tx)%Z.
Proof. intros Hx Hy. unfold newer_or_same. now rewrite Hx, Hy. Qed.

Lemma insert_newest_sorted x l :
  is_Some (time_of x) -> Forall (fun v => is_Some (time_of v)) l ->
  newest_first l -> newest_first (insert_newest x l).
Proof.
  intros [tx Hx] Hdated. unfold newest_first.
  induction 1 as [|y l Hl IH Hy]; cbn.
  - repeat constructor.
  - apply Forall_cons in Hdated as [[ty Hty] Hdated].
    rewrite (by_newest_times x y tx ty Hx Hty).
    destruct (Z.leb_spec ty tx) as [Hle|Hgt].
    + constructor; [now constructor|].
      constructor; [now apply (newer_or_same_times x y tx ty)|].
      rewrite Forall_forall in Hy, Hdated |- *. intros c Hc.
      destruct (Hdated c Hc) as [tc Htc].
      apply (newer_or_same_times x c tx tc Hx Htc).
      apply Hy in Hc. apply (newer_or_same_times y c ty tc Hty Htc) in Hc. lia.
    + constructor; [now apply IH|].
      rewrite Forall_forall. intros c Hc.
      apply insert_newest_elem in Hc as [->|Hc].
      * apply (newer_or_same_times y x ty tx Hty Hx). lia.
      * rewrite Forall_forall in Hy. now apply Hy.
Qed.

Lemma sort_newest_first_sorted l :
  Forall (fun v => is_Some (time_of v)) l -> newest_first (sort_newest_first l).
Proof.
  induction 1 as [|x l Hx Hl IH]; cbn; [constructor|].
  apply insert_newest_sorted; [exact Hx | | exact IH].
  rewrite Forall_forall in Hl |- *. intros c Hc.
  apply Hl. now apply sort_newest_first_elem.
Qed.

Lemma insert_newest_perm x l : insert_newest x l ≡ₚ x :: l.
Proof.
  induction l as [|y l IH]; cbn; [reflexivity|].
  destruct (default 0 (by_newest x y) <=? 0)%Z; [reflexivity|].
  rewrite IH. apply Permutation_swap.
Qed.

Lemma sort_newest_first_perm l : sort_newest_first l ≡ₚ l.
Proof.
  induction l as [|x l IH]; cbn; [reflexivity|].
  rewrite insert_newest_perm. now constructor.
Qed.


Lemma items_lookup (w : World) (keys : list string) key value :
  (key, value) ∈ map (fun k => (k, storage w !! k)) keys ->
  value = storage w !! key.
Proof.
  intros Hin. apply list_elem_of_In, List.in_map_iff in Hin as (k & Heq & _).
  now inversion Heq.
Qed.


Lemma unexpired_iff (t : Z) (v : CachedValue) :
  is_expired t v = false <-> unexpired t v.
Proof.
  unfold is_expired, unexpired, expiryTime, CACHE_EXPIRY_HOURS, DAY_MS.
  destruct (time_of v); [rewrite Z.ltb_ge; lia | tauto].
Qed.

Lemma refreshCachedTracks_exec cfg w :
  let items := map (fun k => (k, storage w !! k))
                 (List.filter in_namespace (map_to_list (storage w)).*1) in
  exec (refreshCachedTracks cfg) w
  = with_state
      (set_cachedTracks
         (take (maxCachedTracks cfg)
            (sort_newest_first (omap (keeps (clock w)) items))))
      (foldl drop_key w (List.filter (purges (clock w)) items).*1).
Proof.
  cbv zeta. unfold exec, refreshCachedTracks, bind, getAllKeys, multiGet, read.
  rewrite collectValid_run. reflexivity.
Qed.




(** ** Effects of the lifecycle operations *)

Lemma exec_bind {A B} (m : M A) (k : A -> M B) w :
  exec (bind m k) w = exec (k (eval m w)) (exec m w).
Proof. unfold exec, eval, bind. now destruct (m w). Qed.

Lemma eval_bind {A B} (m : M A) (k : A -> M B) w :
  eval (bind m k) w = eval (k (eval m w)) (exec m w).
Proof. unfold exec, eval, bind. now destruct (m w). Qed.

Lemma exec_then_ret {A} (m : M A) w : exec (bind m (fun _ => ret tt)) w = exec m w.
Proof. unfold exec, bind, ret. now destruct (m w). Qed.

Lemma remote_calls_app tr1 tr2 :
  remote_calls (tr1 ++ tr2) = remote_calls tr1 ++ remote_calls tr2.
Proof.
  induction tr1 as [|[] tr1 IH]; cbn; [reflexivity | now f_equal | exact IH..].
Qed.

Lemma written_app tr1 tr2 : written (tr1 ++ tr2) = written tr1 ++ written tr2.
Proof.
  induction tr1 as [|[c|key [[c|f]| |]|key] tr1 IH]; cbn;
    first [reflexivity | exact IH | now f_equal].
Qed.

Lemma written_removals keys : written (map RemoveItem keys) = [].
Proof. induction keys; cbn; auto. Qed.

Lemma remote_calls_removals keys : remote_calls (map RemoveItem keys) = [].
Proof. induction keys; cbn; auto. Qed.

Lemma cache_only_refl w : cache_only w w.
Proof. now constructor. Qed.

Lemma cache_only_trans w1 w2 w3 :
  cache_only w1 w2 -> cache_only w2 w3 -> cache_only w1 w3.
Proof. intros [] []. constructor; congruence. Qed.

Lemma cacheTrack_cache_only cfg track w :
  cache_only w (exec (cacheTrack cfg track) w).
Proof.
  rewrite cacheTrack_exec. constructor; try reflexivity.
  cbn. rewrite remote_calls_app. cbn. now rewrite app_nil_r.
Qed.

Lemma cacheTrack_written cfg track w :
  written (trace (exec (cacheTrack cfg track) w))
  = written (trace w) ++ [cache_entry track].
Proof. rewrite cacheTrack_exec. cbn. now rewrite written_app. Qed.

Lemma cacheAll_cache_only cfg ts : forall w,
  cache_only w (exec (cacheAll cfg ts) w).
Proof.
  induction ts as [|t ts IH]; intros w; cbn [cacheAll].
  - apply cache_only_refl.
  - rewrite exec_bind. eapply cache_only_trans; [apply cacheTrack_cache_only | apply IH].
Qed.

Lemma cacheAll_written cfg ts : forall w,
  written (trace (exec (cacheAll cfg ts) w))
  = written (trace w) ++ map cache_entry ts.
Proof.
  induction ts as [|t ts IH]; intros w; cbn [cacheAll map].
  - unfold exec, ret. cbn. now rewrite app_nil_r.
  - rewrite exec_bind, IH, cacheTrack_written, <- app_assoc. reflexivity.
Qed.


Lemma getCacheKey_inj a b : getCacheKey a = getCacheKey b -> a = b.
Proof. unfold getCacheKey. apply (inj (String.app CACHE_KEY_PREFIX)). Qed.

Lemma cacheTrack_storage cfg track w :
  storage (exec (cacheTrack cfg track) w)
  = <[getCacheKey (track_id track) := Serialized (fresh_entry track w)]> (storage w).
Proof. now rewrite cacheTrack_exec. Qed.

Lemma cacheAll_storage_other cfg ts : forall w key,
  Forall (fun t => getCacheKey (track_id t) <> key) ts ->
  storage (exec (cacheAll cfg ts) w) !! key = storage w !! key.
Proof.
  induction ts as [|t ts IH]; intros w key Hkeys; [reflexivity|].
  inversion Hkeys as [|? ? Ht Hts]; subst.
  cbn [cacheAll]. rewrite exec_bind, IH by assumption.
  rewrite cacheTrack_storage. now apply lookup_insert_ne.
Qed.

Lemma cacheAll_storage cfg ts : forall w t,
  t ∈ ts ->
  exists c : CachedTrack,
            storage (exec (cacheAll cfg ts) w) !! getCacheKey (track_id t)
            = Some (Serialized c)
            /\ cached_track c ∈ ts
            /\ track_id (cached_track c) = track_id t.
Proof.
  induction ts as [|t' ts IH]; intros w t Hin; [now apply elem_of_nil in Hin|].
  cbn [cacheAll]. rewrite exec_bind.
  destruct (decide (Exists (fun u => track_id u = track_id t) ts)) as [Hlater|Hnot].
  - apply Exists_exists in Hlater as (u & Hu & Hid).
    destruct (IH (exec (cacheTrack cfg t') w) u Hu) as (c & Hc & Hmem & Hcid).
    exists c. rewrite <- Hid. repeat split; [exact Hc | now right | exact Hcid].
  - apply elem_of_cons in Hin as [->|Hin].
    + exists (fresh_entry t' w). split; [|split; [left | reflexivity]].
      rewrite cacheAll_storage_other.
      * rewrite cacheTrack_storage. apply lookup_insert_eq.
      * rewrite Forall_forall. intros u Hu Hkey. apply Hnot, Exists_exists.
        exists u. split; [exact Hu | now apply getCacheKey_inj].
    + exfalso. apply Hnot, Exists_exists. now exists t.
Qed.

(** The three ways a poll reply is handled. *)
Lemma poll_resume_failure cfg trackIds (response : SunoApiResponse (list SunoTrack)) e w :
  error response = Some e ->
  exec (pollForCompletion_resume cfg trackIds response) w
  = with_state (set_status failed) (with_state (set_error (Some (message e))) w).
Proof. intros He. unfold pollForCompletion_resume. now rewrite He. Qed.

Lemma poll_resume_completion cfg trackIds (response : SunoApiResponse (list SunoTrack)) w :
  let updatedTracks := default [] (default None (data response)) in
  error response = None ->
  forallb is_terminal updatedTracks = true ->
  exec (pollForCompletion_resume cfg trackIds response) w
  = exec (cacheAll cfg (List.filter is_complete updatedTracks))
      (with_state (set_progress 100%Q)
         (with_state (set_status completed)
            (with_state (set_progress (newProgress updatedTracks))
               (with_state (set_tracks updatedTracks) w)))).
Proof.
  cbv zeta. intros He Hall. unfold pollForCompletion_resume.
  rewrite He, Hall. reflexivity.
Qed.

Lemma poll_resume_continuation cfg trackIds (response : SunoApiResponse (list SunoTrack)) w :
  let updatedTracks := default [] (default None (data response)) in
  error response = None ->
  forallb is_terminal updatedTracks = false ->
  exec (pollForCompletion_resume cfg trackIds response) w
  = {| state :=
         set_pollTimeoutRef (Some (next_handle w))
           (set_pollAttemptsRef (S (pollAttemptsRef (state w)))
              (set_progress (newProgress updatedTracks)
                 (set_tracks updatedTracks (state w))));
       storage := storage w; clock := clock w; entropy := entropy w;
       timers := timers w ++ [(next_handle w, trackIds)];
       inflight := inflight w; next_handle := S (next_handle w);
       trace := trace w |}.
Proof.
  cbv zeta. intros He Hall. unfold pollForCompletion_resume.
  rewrite He, Hall. reflexivity.
Qed.

(** ** The attempt budget *)

Lemma poll_exhausted cfg trackIds w :
  maxPollAttempts cfg <= pollAttemptsRef (state w) ->
  exec (pollForCompletion cfg trackIds) w
  = with_state (set_status failed)
      (with_state (set_error (Some timeout_message)) w).
Proof.
  intros Hmax. unfold exec, pollForCompletion, bind, read.
  cbn. destruct (Nat.leb_spec (maxPollAttempts cfg) (pollAttemptsRef (state w)));
    [reflexivity | lia].
Qed.

Lemma poll_sends cfg trackIds w :
  pollAttemptsRef (state w) < maxPollAttempts cfg ->
  exec (pollForCompletion cfg trackIds) w
  = {| state := state w; storage := storage w; clock := clock w;
       entropy := entropy w; timers := timers w;
       inflight := inflight w ++ [(next_handle w, AwaitPoll trackIds)];
       next_handle := S (next_handle w);
       trace := trace w ++ [Remote (CallGetTracks trackIds)] |}.
Proof.
  intros Hmax. unfold exec, pollForCompletion, bind, read.
  cbn. destruct (Nat.leb_spec (maxPollAttempts cfg) (pollAttemptsRef (state w)));
    [lia | reflexivity].
Qed.

Lemma wrapper_message_origin {T} endpoint options (o : SunoApi.FetchOutcome T) s e :
  error (fst (SunoApi.makeRequest endpoint options o s)) = Some e ->
  message e = timeout_message ->
  supplies timeout_message o.
Proof.
  unfold SunoApi.makeRequest.
  destruct (SunoApi.apiKey s) as [k|]; [destruct (truthy k)|]; cbn;
    try (intros [= <-]; cbn; discriminate).
  destruct o as [[m|]|okj stj [m|]|[] st [|v bm be]]; cbn;
    try (intros [= <-]; cbn; first [discriminate | congruence]);
    try discriminate.
  intros [= <-]. cbn. unfold js_or.
  destruct bm as [m|]; [destruct (truthy m); [intros ->; now left|]|];
    (destruct be as [m'|]; [destruct (truthy m'); [intros ->; now right|]|]);
    cbn; discriminate.
Qed.

(** C5.  When [pollForCompletion] starts with the attempt counter at or
    above [maxPollAttempts], the manager goes to the error state with
    the timeout message, sends no request to the remote service and
    schedules no further poll; so does the firing of a scheduled poll,
    which leaves that timer consumed and nothing in its place.  The
    message is not one the wrapper produces for a failed poll request: a
    failed [getTracks] reports it only when the transport itself
    supplied that very text. *)
Theorem C5_poll_budget_exhausted (cfg : Options) (trackIds : list string) (w : World) :
  maxPollAttempts cfg <= pollAttemptsRef (state w) ->
  let w' := exec (pollForCompletion cfg trackIds) w in
  status (state w') = failed /\
  error_message (state w') = Some timeout_message /\
  trace w' = trace w /\
  inflight w' = inflight w /\
  timers w' = timers w /\
  (forall h ids,
      lookup_handle h (timers w) = Some ids ->
      exists fired,
        step cfg (TimerFires h) w = Some fired /\
        status (state fired) = failed /\
        error_message (state fired) = Some timeout_message /\
        trace fired = trace w /\
        inflight fired = inflight w /\
        timers fired = remove_handle h (timers w)) /\
  (forall ids o s e,
      error (fst (SunoApi.getTracks ids o s)) = Some e ->
      message e = timeout_message -> supplies timeout_message o).
Proof.
  intros Hmax. cbv zeta. rewrite poll_exhausted by exact Hmax.
  repeat apply conj; try reflexivity.
  - intros h ids Hh. cbn [step]. rewrite Hh. eexists. split; [reflexivity|].
    rewrite poll_exhausted by exact Hmax. repeat split.
  - intros ids o s e. apply wrapper_message_origin.
Qed.

(** The default budget is 60: a generation that stalls is polled 60
    times and then fails with the timeout message. *)
Lemma stalled_generation_times_out :
  (fun w => (status (state w), error_message (state w),
             pollAttemptsRef (state w), length (remote_calls (trace w)),
             timers w, inflight w))
    <$> run default_options (stalled_generation 60) fresh_world
  = Some (failed, Some timeout_message, 60, 61, [], []).
Proof. vm_compute. reflexivity. Qed.

(** ** What a new submission resets *)

Lemma generateMusic_resets prompt options w :
  let w' := exec (generateMusic prompt options) w in
  status (state w') = generating /\
  progress (state w') = 0%Q /\
  error_message (state w') = None /\
  tracks (state w') = [] /\
  pollAttemptsRef (state w') = 0.
Proof. cbv zeta. repeat split. Qed.

Lemma extendTrack_resets trackId prompt options w :
  let w' := exec (extendTrack trackId prompt options) w in
  status (state w') = generating /\
  progress (state w') = 0%Q /\
  error_message (state w') = None /\
  tracks (state w') = tracks (state w) /\
  pollAttemptsRef (state w') = pollAttemptsRef (state w).
Proof. cbv zeta. repeat split. Qed.

(** C4 fails for [extendTrack].  After a generation that used up the
    default budget of 60 attempts, [extendTrack] leaves the counter at
    60 and the previous track list in place; the extension is accepted
    by the remote service and then fails at once with the timeout
    message, without a single poll for its track.  [generateMusic] in
    the same world starts from 0 and polls. *)
Lemma C4_extendTrack_keeps_spent_budget :
  let summary w :=
    (status (state w), error_message (state w), pollAttemptsRef (state w),
     tracks (state w),
     List.filter (fun c => match c with
                           | CallGetTracks ["b"] => true
                           | _ => false
                           end) (remote_calls (trace w))) in
  summary <$> run default_options (stalled_generation 60) fresh_world
  = Some (failed, Some timeout_message, 60, [sample_track "a" streaming], []) /\
  summary <$> run default_options
                (stalled_generation 60
                 ++ [Calls_extendTrack "a" "one more verse" no_extend_options])
                fresh_world
  = Some (generating, None, 60, [sample_track "a" streaming], []) /\
  summary <$> run default_options
                (stalled_generation 60 ++ extension_accepted 122) fresh_world
  = Some (failed, Some timeout_message, 60, [sample_track "b" queued], []) /\
  summary <$> run default_options
                (stalled_generation 60 ++ resubmission_accepted 122) fresh_world
  = Some (polling, None, 0, [sample_track "b" queued], [CallGetTracks ["b"]]).
Proof. cbv zeta. repeat split; vm_compute; reflexivity. Qed.

(** ** The outcome of a submission *)

Lemma submitted_resume_rejected cfg no_data (response : SunoApiResponse GenerationResponse) w :
  ~ accepted response ->
  let w' := exec (submitted_resume cfg no_data response) w in
  status (state w') = failed /\ is_Some (error_message (state w')) /\
  trace w' = trace w /\ inflight w' = inflight w /\ timers w' = timers w.
Proof.
  intros Hrej. cbv zeta. unfold submitted_resume, accepted in *.
  destruct (error response) as [e|]; [cbn; eauto 10|].
  destruct (data response) as [[generation|]|]; cbn; eauto 10.
  exfalso. apply Hrej. eauto.
Qed.






(** ** Progress *)

Lemma share_nonneg (a n : nat) :
  (0 <= inject_Z (Z.of_nat a) / inject_Z (Z.of_nat n) * 100)%Q.
Proof.
  apply Qmult_le_0_compat; [|discriminate].
  apply Qmult_le_0_compat.
  - rewrite <- (Zle_Qle 0). lia.
  - apply Qinv_le_0_compat. rewrite <- (Zle_Qle 0). lia.
Qed.

Lemma share_monotone (a b n : nat) :
  a <= b ->
  (inject_Z (Z.of_nat a) / inject_Z (Z.of_nat n) * 100
   <= inject_Z (Z.of_nat b) / inject_Z (Z.of_nat n) * 100)%Q.
Proof.
  intros Hab. apply Qmult_le_compat_r; [|discriminate].
  apply Qmult_le_compat_r.
  - rewrite <- Zle_Qle. lia.
  - apply Qinv_le_0_compat. rewrite <- (Zle_Qle 0). lia.
Qed.

Lemma newProgress_bounds ts : (0 <= newProgress ts <= 100)%Q.
Proof.
  unfold newProgress. split.
  - apply Q.min_glb; [apply share_nonneg | discriminate].
  - apply Q.le_min_r.
Qed.

Lemma stays_terminal_count ts1 ts2 :
  Forall2 stays_terminal ts1 ts2 ->
  length ts1 = length ts2 /\ completedCount ts1 <= completedCount ts2.
Proof.
  unfold completedCount. induction 1 as [|a b ts1 ts2 Hab _ [IHl IHc]]; cbn; [auto|].
  split; [now f_equal|].
  unfold stays_terminal in Hab.
  destruct (is_terminal a); [rewrite Hab by reflexivity; cbn; lia|].
  destruct (is_terminal b); cbn; lia.
Qed.

Lemma newProgress_monotone ts1 ts2 :
  Forall2 stays_terminal ts1 ts2 -> (newProgress ts1 <= newProgress ts2)%Q.
Proof.
  intros H. apply stays_terminal_count in H as [Hlen Hcount].
  unfold newProgress. rewrite Hlen.
  apply Q.min_le_compat_r, share_monotone, Hcount.
Qed.

Lemma stays_terminal_all ts1 ts2 :
  Forall2 stays_terminal ts1 ts2 ->
  forallb is_terminal ts1 = true -> forallb is_terminal ts2 = true.
Proof.
  induction 1 as [|a b ts1 ts2 Hab _ IH]; cbn; [auto|].
  rewrite !andb_true_iff. intros [Ha Hts]. split; [now apply Hab | now apply IH].
Qed.

(** Progress after a reply without error. *)
Lemma poll_resume_progress cfg trackIds ts w :
  progress (state (exec (pollForCompletion_resume cfg trackIds (ok_response ts)) w))
  = if forallb is_terminal ts then 100%Q else newProgress ts.
Proof.
  destruct (forallb is_terminal ts) eqn:Hall.
  - rewrite poll_resume_completion by (cbn; auto).
    rewrite (co_progress _ _ (cacheAll_cache_only _ _ _)). reflexivity.
  - rewrite poll_resume_continuation by (cbn; auto). reflexivity.
Qed.

Lemma poll_resume_status cfg trackIds ts w :
  status (state (exec (pollForCompletion_resume cfg trackIds (ok_response ts)) w))
  = if forallb is_terminal ts then completed else status (state w).
Proof.
  destruct (forallb is_terminal ts) eqn:Hall.
  - rewrite poll_resume_completion by (cbn; auto).
    rewrite (co_status _ _ (cacheAll_cache_only _ _ _)). reflexivity.
  - rewrite poll_resume_continuation by (cbn; auto). reflexivity.
Qed.

Lemma drop_keys_cache_only keys w : cache_only w (foldl drop_key w keys).
Proof.
  destruct (drop_keys_frame keys w) as (Hs & Hc & Ht & Hi & Htr).
  assert (Hn : forall ks v, next_handle (foldl drop_key v ks) = next_handle v).
  { induction ks as [|k ks IH]; intros v; cbn; [reflexivity | now rewrite IH]. }
  constructor; rewrite ?Hs; try assumption; try reflexivity.
  - apply Hn.
  - rewrite Htr, remote_calls_app, remote_calls_removals. apply app_nil_r.
Qed.

Lemma getCachedTrack_cache_only trackId w :
  cache_only w (exec (getCachedTrack trackId) w).
Proof.
  unfold exec. rewrite getCachedTrack_run.
  destruct (storage w !! getCacheKey trackId) as [[v| |]|]; cbn;
    try apply cache_only_refl.
  destruct (is_expired (clock w) v); cbn; [|apply cache_only_refl].
  apply (drop_keys_cache_only [getCacheKey trackId] w).
Qed.

Lemma getTrack_resume_cache_only cfg trackId response w :
  cache_only w (exec (getTrack_resume cfg trackId response) w).
Proof.
  unfold getTrack_resume.
  destruct (error response) as [e|]; [now constructor|].
  destruct (List.find _ _) as [t|]; [|apply cache_only_refl].
  rewrite exec_bind. unfold ret at 1, exec at 1. cbn [snd].
  destruct (is_complete t); [apply cacheTrack_cache_only | apply cache_only_refl].
Qed.

Lemma clearCache_cache_only w : cache_only w (exec clearCache w).
Proof.
  unfold exec, clearCache, bind, getAllKeys, read, multiRemove, modify,
    setCachedTracks. cbn.
  eapply cache_only_trans; [apply drop_keys_cache_only | now constructor].
Qed.

Lemma refreshCachedTracks_cache_only cfg w :
  cache_only w (exec (refreshCachedTracks cfg) w).
Proof.
  rewrite refreshCachedTracks_exec. cbv zeta.
  eapply cache_only_trans; [apply drop_keys_cache_only | now constructor].
Qed.

Lemma cancelGeneration_effect w :
  let w' := exec cancelGeneration w in
  halted w w' /\
  timers w' = match pollTimeoutRef (state w) with
              | Some h => remove_handle h (timers w)
              | None => timers w
              end /\
  (inflight w' = inflight w \/
   inflight w' = inflight w ++ [(next_handle w, AwaitCancel)]) /\
  (status (state w') = idle /\ progress (state w') = 0%Q
     /\ generationId (state w') = None
   \/ (AwaitCancel ∈ (inflight w').*2)).
Proof.
  cbv zeta. unfold exec, cancelGeneration, bind, read.
  destruct (pollTimeoutRef (state w)) as [h|] eqn:Href; cbn; rewrite ?Href;
    (destruct (generationId (state w)) as [g|]; [destruct (truthy g)|]); cbn;
    (split; [constructor; cbn; auto|]);
    (split; [reflexivity|]);
    (split; [auto|]); auto;
    right; rewrite fmap_app, elem_of_app; right; cbn; left.
Qed.

Lemma cache_only_completes w w' : cache_only w w' -> completes_at_100 w w'.
Proof. intros H Hc. left. now rewrite <- (co_status _ _ H). Qed.

Lemma pollForCompletion_status cfg trackIds w :
  status (state (exec (pollForCompletion cfg trackIds) w)) = status (state w) \/
  status (state (exec (pollForCompletion cfg trackIds) w)) = failed.
Proof.
  destruct (Nat.le_gt_cases (maxPollAttempts cfg) (pollAttemptsRef (state w))).
  - rewrite poll_exhausted by assumption. now right.
  - rewrite poll_sends by assumption. now left.
Qed.

Lemma submitted_resume_status cfg no_data response w :
  status (state (exec (submitted_resume cfg no_data response) w)) = failed \/
  status (state (exec (submitted_resume cfg no_data response) w)) = polling.
Proof.
  unfold submitted_resume.
  destruct (error response) as [e|]; [now left|].
  destruct (default None (data response)) as [generation|]; [|now left].
  rewrite !exec_bind.
  destruct (autoStartPolling cfg); [|now right].
  match goal with
  | |- context [exec (pollForCompletion cfg ?ids) ?v] =>
      destruct (pollForCompletion_status cfg ids v) as [-> | ->]
  end; [now right | now left].
Qed.

Lemma pollForCompletion_resume_completes cfg trackIds response w :
  completes_at_100 w (exec (pollForCompletion_resume cfg trackIds response) w).
Proof.
  intros Hc.
  destruct (error response) as [e|] eqn:He.
  - erewrite poll_resume_failure in Hc by eassumption. discriminate.
  - destruct (forallb is_terminal (default [] (default None (data response))))
      eqn:Hall.
    + right. rewrite poll_resume_completion by assumption.
      now rewrite (co_progress _ _ (cacheAll_cache_only _ _ _)).
    + left. rewrite poll_resume_continuation in Hc by assumption. exact Hc.
Qed.

Lemma getTrack_status trackId w :
  status (state (exec (getTrack trackId) w)) = status (state w).
Proof.
  unfold getTrack. rewrite exec_bind.
  pose proof (co_status _ _ (getCachedTrack_cache_only trackId w)) as Hs.
  destruct (eval (getCachedTrack trackId) w) as [v|];
    [destruct (is_truthy v); [exact Hs|]|];
    rewrite exec_bind; exact Hs.
Qed.

(** Whatever the event, the status becomes [completed] with progress 100. *)
Lemma step_completes_at_100 cfg e w w' :
  step cfg e w = Some w' -> completes_at_100 w w'.
Proof.
  destruct e as [prompt options|trackId prompt options|trackId| | | | | |h|h r|ms];
    cbn [step]; intros Hstep.
  - inversion Hstep. intros Hc. discriminate.
  - inversion Hstep. intros Hc. discriminate.
  - inversion Hstep. intros Hc. left. now rewrite getTrack_status in Hc.
  - inversion Hstep. intros Hc. left.
    destruct (cancelGeneration_effect w) as ([_ [Hs|Hs] _] & _); congruence.
  - inversion Hstep. intros Hc. now left.
  - inversion Hstep. intros Hc. now left.
  - inversion Hstep. apply cache_only_completes, clearCache_cache_only.
  - inversion Hstep. apply cache_only_completes, refreshCachedTracks_cache_only.
  - destruct (lookup_handle h (timers w)) as [trackIds|]; [|discriminate].
    inversion Hstep. intros Hc. left.
    match type of Hc with
    | status (state (exec (pollForCompletion cfg ?ids) ?v)) = _ =>
        destruct (pollForCompletion_status cfg ids v) as [Hs|Hs]
    end; [rewrite Hs in Hc; exact Hc | congruence].
  - destruct (lookup_handle h (inflight w)) as [k|]; [|discriminate].
    destruct k as [| |trackIds|trackId|], r as [resp|resp|]; cbn [resume] in Hstep;
      try discriminate; inversion Hstep; intros Hc.
    + match type of Hc with
      | status (state (exec (generateMusic_resume cfg ?resp) ?v)) = _ =>
          destruct (submitted_resume_status cfg "No generation data received" resp v)
            as [Hs|Hs]
      end; unfold generateMusic_resume in Hc; congruence.
    + match type of Hc with
      | status (state (exec (extendTrack_resume cfg ?resp) ?v)) = _ =>
          destruct (submitted_resume_status cfg "No extension data received" resp v)
            as [Hs|Hs]
      end; unfold extendTrack_resume in Hc; congruence.
    + match type of Hc with
      | status (state (exec (pollForCompletion_resume cfg ?ids ?resp) ?v)) = _ =>
          destruct (pollForCompletion_resume_completes cfg ids resp v Hc) as [Hs|Hs]
      end; [now left | now right].
    + left. rewrite exec_bind in Hc. unfold ret, exec at 1 in Hc. cbn [snd] in Hc.
      now rewrite (co_status _ _ (getTrack_resume_cache_only _ _ _ _)) in Hc.
    + discriminate.
    + discriminate.
    + discriminate.
  - destruct (0 <=? ms)%Z; [|discriminate]. inversion Hstep. intros Hc. now left.
Qed.

(** C1 (as the code has it).  The status becomes [completed] only with
    progress exactly 100, whatever the event.  A poll reply without
    error sets progress to the share of terminal tracks in that reply,
    between 0 and 100; from one such reply to the next, when no track of
    the batch leaves a terminal status, progress does not decrease.  A
    failed poll and an exhausted budget leave progress as it was.  The
    initial 10 is not a lower bound: the first reply replaces it by the
    share, which is 0 as long as no track is terminal. *)
Theorem C1_progress_along_polling (cfg : Options) (w : World) :
  (forall e w', step cfg e w = Some w' ->
                status (state w) <> completed -> status (state w') = completed ->
                progress (state w') = 100%Q) /\
  (forall trackIds ts,
      let w' := exec (pollForCompletion_resume cfg trackIds (ok_response ts)) w in
      (forallb is_terminal ts = true ->
         status (state w') = completed /\ progress (state w') = 100%Q) /\
      (forallb is_terminal ts = false ->
         status (state w') = status (state w) /\ progress (state w') = newProgress ts) /\
      (0 <= progress (state w') <= 100)%Q) /\
  (forall trackIds ts1 ts2 w2,
      Forall2 stays_terminal ts1 ts2 ->
      (progress (state (exec (pollForCompletion_resume cfg trackIds (ok_response ts1)) w))
       <= progress (state (exec (pollForCompletion_resume cfg trackIds
                                   (ok_response ts2)) w2)))%Q) /\
  (forall trackIds (response : SunoApiResponse (list SunoTrack)),
      error response <> None ->
      progress (state (exec (pollForCompletion_resume cfg trackIds response) w))
      = progress (state w)) /\
  (forall trackIds,
      progress (state (exec (pollForCompletion cfg trackIds) w)) = progress (state w)).
Proof.
  repeat apply conj.
  - intros e w' Hstep Hbefore Hafter.
    destruct (step_completes_at_100 cfg e w w' Hstep Hafter); [contradiction | assumption].
  - intros trackIds ts. cbv zeta.
    rewrite poll_resume_progress, poll_resume_status.
    destruct (forallb is_terminal ts); repeat split; try discriminate;
      try apply newProgress_bounds.
  - intros trackIds ts1 ts2 w2 Hforward. rewrite !poll_resume_progress.
    destruct (forallb is_terminal ts1) eqn:H1.
    + rewrite (stays_terminal_all _ _ Hforward H1). apply Qle_refl.
    + destruct (forallb is_terminal ts2).
      * apply newProgress_bounds.
      * now apply newProgress_monotone.
  - intros trackIds response He.
    destruct (error response) as [e|] eqn:Herr; [|congruence].
    erewrite poll_resume_failure by eassumption. reflexivity.
  - intros trackIds.
    destruct (Nat.le_gt_cases (maxPollAttempts cfg) (pollAttemptsRef (state w))).
    + rewrite poll_exhausted by assumption. reflexivity.
    + rewrite poll_sends by assumption. reflexivity.
Qed.

(** C1 as stated fails: two tracks are accepted (progress 10), and the
    first poll, which finds both streaming, sets progress to 0 while the
    status is still [polling]. *)
Lemma C1_progress_drops_below_initial :
  exists w1 w2,
    run default_options two_tracks_accepted fresh_world = Some w1 /\
    step default_options both_streaming w1 = Some w2 /\
    status (state w1) = polling /\ progress (state w1) = 10%Q /\
    status (state w2) = polling /\ (progress (state w2) == 0)%Q /\
    ~ (progress (state w1) <= progress (state w2))%Q.
Proof.
  eexists. eexists.
  split; [vm_compute; reflexivity|].
  split; [vm_compute; reflexivity|].
  cbn. repeat split; try reflexivity.
  intros Hle. vm_compute in Hle. apply Hle. reflexivity.
Qed.

(** ** Cancelling *)

Lemma halted_refl w : halted w w.
Proof. constructor; auto. Qed.

Lemma halted_trans w1 w2 w3 : halted w1 w2 -> halted w2 w3 -> halted w1 w3.
Proof.
  intros [Ht1 Hs1 Hp1] [Ht2 Hs2 Hp2]. constructor.
  - congruence.
  - destruct Hs2 as [Hs2|Hs2]; [rewrite Hs2; exact Hs1 | now right].
  - destruct Hp2 as [Hp2|Hp2]; [rewrite Hp2; exact Hp1 | now right].
Qed.

Lemma cache_only_halted w w' : cache_only w w' -> halted w w'.
Proof. intros H. constructor; [apply H | left; apply H | left; apply H]. Qed.

Lemma lookup_handle_In {A} h (l : list (nat * A)) a :
  lookup_handle h l = Some a -> List.In (h, a) l.
Proof.
  induction l as [|[h' a'] l IH]; cbn; [discriminate|].
  destruct (Nat.eqb_spec h' h) as [->|Hne].
  - intros [= ->]. now left.
  - intros H. right. now apply IH.
Qed.

Lemma remove_handle_Forall {A} (P : nat * A -> Prop) h l :
  Forall P l -> Forall P (remove_handle h l).
Proof.
  unfold remove_handle. rewrite !List.Forall_forall. intros H x Hx.
  apply List.filter_In in Hx. apply H, Hx.
Qed.

Lemma remove_held_timers {A} h (l : list (nat * A)) :
  Forall (fun p => Some h = Some (fst p)) l -> remove_handle h l = [].
Proof.
  unfold remove_handle. induction 1 as [|[h' a] l Hh _ IH]; cbn; [reflexivity|].
  cbn in Hh. injection Hh as <-. now rewrite Nat.eqb_refl.
Qed.

(** With no timer pending and nothing of a generation in flight, an
    event of the environment leaves the lifecycle where it is. *)
Lemma environment_step_halted cfg e w w' :
  timers w = [] -> no_generation_in_flight w -> environment e = true ->
  step cfg e w = Some w' ->
  halted w w' /\ timers w' = [] /\ no_generation_in_flight w' /\
  remote_calls (trace w') = remote_calls (trace w).
Proof.
  intros Htimers Hquiet Henv.
  destruct e as [| | | | | | | |h|h r|ms]; try discriminate; cbn [step].
  - rewrite Htimers. discriminate.
  - destruct (lookup_handle h (inflight w)) as [k|] eqn:Hk; [|discriminate].
    assert (Hqk : quiet k = true).
    { apply lookup_handle_In in Hk. unfold no_generation_in_flight in Hquiet.
      rewrite List.Forall_forall in Hquiet. apply (Hquiet _ Hk). }
    assert (Hquiet' : Forall (fun p => quiet (snd p) = true)
                        (remove_handle h (inflight w)))
      by now apply remove_handle_Forall.
    destruct k as [| |trackIds|trackId|]; try discriminate.
    + destruct r as [resp|resp|]; cbn [resume]; try discriminate.
      intros [= <-]. rewrite exec_then_ret.
      set (w0 := with_inflight _ w).
      pose proof (getTrack_resume_cache_only cfg trackId resp w0) as Hco.
      split; [apply (halted_trans w w0); [constructor; cbn; auto|];
              apply (cache_only_halted w0 _ Hco)|].
      split; [now rewrite (co_timers _ _ Hco)|].
      split; [unfold no_generation_in_flight; now rewrite (co_inflight _ _ Hco)|].
      now rewrite (co_remote _ _ Hco).
    + cbn [resume]. intros [= <-].
      split; [constructor; cbn; auto|]. auto.
  - destruct (0 <=? ms)%Z; [|discriminate]. intros [= <-].
    split; [constructor; cbn; auto|]. auto.
Qed.

Lemma environment_run_halted cfg es : forall w w',
  timers w = [] -> no_generation_in_flight w ->
  Forall (fun e => environment e = true) es ->
  run cfg es w = Some w' ->
  halted w w' /\ timers w' = [] /\ no_generation_in_flight w' /\
  remote_calls (trace w') = remote_calls (trace w).
Proof.
  induction es as [|e es IH]; intros w w' Htimers Hquiet Henv; cbn [run].
  - intros [= <-]. split; [apply halted_refl | auto].
  - inversion Henv as [|? ? He Hes]; subst.
    destruct (step cfg e w) as [w1|] eqn:Hstep; [|discriminate].
    intros Hrun.
    destruct (environment_step_halted cfg e w w1 Htimers Hquiet He Hstep)
      as (Hh1 & Ht1 & Hq1 & Hr1).
    destruct (IH w1 w' Ht1 Hq1 Hes Hrun) as (Hh & Ht & Hq & Hr).
    split; [eapply halted_trans; eassumption|].
    split; [exact Ht|]. split; [exact Hq|]. congruence.
Qed.

(** C2 (as the code has it).  When [cancelGeneration] is called while
    the next poll is only scheduled (every pending timer is the one held
    in the ref, and no submission or poll request is in flight), the
    timer is cleared, and whatever the environment does afterwards
    (timers, replies, time passing) the track list stays as it was, the
    status and the progress stay as they were until the cancellation
    resets them to [idle] and 0, and nothing more is sent to the remote
    service. *)
Theorem C2_cancel_between_polls (cfg : Options) (w w' : World) (es : list Event) :
  no_generation_in_flight w ->
  timers_held_by_ref w ->
  Forall (fun e => environment e = true) es ->
  run cfg es (exec cancelGeneration w) = Some w' ->
  timers (exec cancelGeneration w) = [] /\
  halted w w' /\
  timers w' = [] /\
  no_generation_in_flight w' /\
  remote_calls (trace w') = remote_calls (trace (exec cancelGeneration w)).
Proof.
  intros Hquiet Hheld Henv Hrun.
  destruct (cancelGeneration_effect w) as (Hh0 & Ht0 & Hi0 & _).
  assert (Htimers : timers (exec cancelGeneration w) = []).
  { rewrite Ht0. unfold timers_held_by_ref in Hheld.
    destruct (pollTimeoutRef (state w)) as [h|].
    - now apply remove_held_timers.
    - destruct (timers w) as [|p l]; [reflexivity|].
      inversion Hheld; discriminate. }
  assert (Hquiet0 : no_generation_in_flight (exec cancelGeneration w)).
  { unfold no_generation_in_flight in *.
    destruct Hi0 as [-> | ->]; [exact Hquiet|].
    apply Forall_app. split; [exact Hquiet | now repeat constructor]. }
  destruct (environment_run_halted cfg es _ w' Htimers Hquiet0 Henv Hrun)
    as (Hh & Ht & Hq & Hr).
  split; [exact Htimers|].
  split; [eapply halted_trans; eassumption|]. auto.
Qed.

(** C2 as stated fails: the reply to a poll request that was in flight
    when the caller cancelled is applied.  After the cancellation the
    manager is idle with progress 0 and no generation id; the late reply
    then moves it to [completed] with progress 100, replaces the track
    list and writes the track to the cache; had the track still been
    streaming, the late reply would have scheduled the next poll. *)
Lemma C2_late_reply_is_applied :
  exists w1 w2 w3,
    run default_options (one_track_accepted ++ cancelled) fresh_world = Some w1 /\
    status (state w1) = idle /\ progress (state w1) = 0%Q /\
    generationId (state w1) = None /\
    tracks (state w1) = [sample_track "a" queued] /\
    timers w1 = [] /\
    step default_options (late_reply complete) w1 = Some w2 /\
    status (state w2) = completed /\ progress (state w2) = 100%Q /\
    tracks (state w2) = [sample_track "a" complete] /\
    written (trace w2) = [cache_entry (sample_track "a" complete)] /\
    step default_options (late_reply streaming) w1 = Some w3 /\
    tracks (state w3) = [sample_track "a" streaming] /\
    timers w3 = [(4, ["a"])] /\
    pollTimeoutRef (state w3) = Some 4.
Proof.
  eexists. eexists. eexists.
  split; [vm_compute; reflexivity|].
  do 5 (split; [reflexivity|]).
  split; [vm_compute; reflexivity|].
  do 4 (split; [reflexivity|]).
  split; [vm_compute; reflexivity|].
  repeat split.
Qed.

(** ** Which tracks are cached *)

Lemma getCachedTrack_written trackId w :
  written (trace (exec (getCachedTrack trackId) w)) = written (trace w).
Proof.
  unfold exec. rewrite getCachedTrack_run.
  destruct (storage w !! getCacheKey trackId) as [[v| |]|]; cbn; try reflexivity.
  destruct (is_expired (clock w) v); cbn; [|reflexivity].
  rewrite written_app. cbn. now rewrite app_nil_r.
Qed.

Lemma getTrack_written trackId w :
  written (trace (exec (getTrack trackId) w)) = written (trace w).
Proof.
  unfold getTrack. rewrite exec_bind.
  pose proof (getCachedTrack_written trackId w) as Hlookup.
  destruct (eval (getCachedTrack trackId) w) as [v|];
    [destruct (is_truthy v); [exact Hlookup|]|];
    rewrite exec_bind; unfold ret at 1, exec at 1, await, modify, exec; cbn;
    rewrite written_app; cbn; rewrite app_nil_r; exact Hlookup.
Qed.

Lemma getTrack_resume_written cfg trackId (response : SunoApiResponse (list SunoTrack)) w :
  written (trace (exec (getTrack_resume cfg trackId response) w))
  = written (trace w)
    ++ match error response with
       | Some _ => []
       | None =>
           match List.find (fun t => String.eqb (track_id t) trackId)
                   (default [] (default None (data response))) with
           | Some t => if is_complete t then [cache_entry t] else []
           | None => []
           end
       end.
Proof.
  unfold getTrack_resume.
  destruct (error response) as [e|]; [cbn; now rewrite app_nil_r|].
  destruct (List.find _ _) as [t|]; [|cbn; now rewrite app_nil_r].
  rewrite exec_bind. unfold ret at 1, exec at 1. cbn [snd].
  destruct (is_complete t).
  - apply cacheTrack_written.
  - cbn. now rewrite app_nil_r.
Qed.

Lemma complete_entries ts :
  Forall complete_entry (map cache_entry (List.filter is_complete ts)).
Proof.
  rewrite Forall_forall. intros kt Hin.
  apply list_elem_of_In, List.in_map_iff in Hin as (t & <- & Ht).
  apply List.filter_In in Ht as [_ Hc]. now split.
Qed.

Lemma writes_nothing w w' :
  written (trace w') = written (trace w) -> writes_only_complete w w'.
Proof. intros H. exists []. rewrite app_nil_r. now split. Qed.

Lemma writes_only_complete_trans w1 w2 w3 :
  writes_only_complete w1 w2 -> writes_only_complete w2 w3 ->
  writes_only_complete w1 w3.
Proof.
  intros (n1 & H1 & F1) (n2 & H2 & F2). exists (n1 ++ n2).
  split; [now rewrite H2, H1, app_assoc | now apply Forall_app].
Qed.

Lemma pollForCompletion_written cfg trackIds w :
  written (trace (exec (pollForCompletion cfg trackIds) w)) = written (trace w).
Proof.
  destruct (Nat.le_gt_cases (maxPollAttempts cfg) (pollAttemptsRef (state w))).
  - rewrite poll_exhausted by assumption. reflexivity.
  - rewrite poll_sends by assumption. cbn. rewrite written_app. cbn. apply app_nil_r.
Qed.

Lemma submitted_resume_written cfg no_data response w :
  written (trace (exec (submitted_resume cfg no_data response) w)) = written (trace w).
Proof.
  unfold submitted_resume.
  destruct (error response) as [e|]; [reflexivity|].
  destruct (default None (data response)) as [generation|]; [|reflexivity].
  rewrite !exec_bind.
  destruct (autoStartPolling cfg); [|reflexivity].
  now rewrite pollForCompletion_written.
Qed.

Lemma pollForCompletion_resume_writes cfg trackIds response w :
  writes_only_complete w (exec (pollForCompletion_resume cfg trackIds response) w).
Proof.
  destruct (error response) as [e|] eqn:He.
  - erewrite poll_resume_failure by eassumption. now apply writes_nothing.
  - destruct (forallb is_terminal (default [] (default None (data response))))
      eqn:Hall.
    + rewrite poll_resume_completion by assumption.
      eexists. split; [rewrite cacheAll_written; reflexivity | apply complete_entries].
    + rewrite poll_resume_continuation by assumption. now apply writes_nothing.
Qed.

Lemma step_writes_only_complete cfg e w w' :
  step cfg e w = Some w' -> writes_only_complete w w'.
Proof.
  destruct e as [prompt options|trackId prompt options|trackId| | | | | |h|h r|ms];
    cbn [step]; intros Hstep.
  - inversion Hstep. apply writes_nothing. cbn. rewrite written_app. apply app_nil_r.
  - inversion Hstep. apply writes_nothing. cbn. rewrite written_app. apply app_nil_r.
  - inversion Hstep. apply writes_nothing, getTrack_written.
  - inversion Hstep. apply writes_nothing.
    unfold exec, cancelGeneration, bind, read.
    destruct (pollTimeoutRef (state w)) as [h|]; cbn;
      (destruct (generationId (state w)) as [g|]; [destruct (truthy g)|]); cbn;
      rewrite ?written_app; cbn; rewrite ?app_nil_r; reflexivity.
  - inversion Hstep. now apply writes_nothing.
  - inversion Hstep. now apply writes_nothing.
  - inversion Hstep. apply writes_nothing.
    unfold exec, clearCache, bind, getAllKeys, read, multiRemove, modify,
      setCachedTracks. cbn.
    match goal with
    | |- context [foldl _ w ?keys] =>
        destruct (drop_keys_frame keys w) as (_ & _ & _ & _ & Htr);
        fold drop_key; change (fun w0 k => with_storage (delete k) (RemoveItem k) w0)
                         with drop_key; rewrite Htr
    end.
    rewrite written_app, written_removals. apply app_nil_r.
  - inversion Hstep. apply writes_nothing.
    rewrite refreshCachedTracks_exec. cbv zeta. cbn [trace with_state].
    match goal with
    | |- context [foldl drop_key w ?keys] =>
        destruct (drop_keys_frame keys w) as (_ & _ & _ & _ & Htr); rewrite Htr
    end.
    rewrite written_app, written_removals. apply app_nil_r.
  - destruct (lookup_handle h (timers w)) as [trackIds|]; [|discriminate].
    inversion Hstep. apply writes_nothing. now rewrite pollForCompletion_written.
  - destruct (lookup_handle h (inflight w)) as [k|]; [|discriminate].
    destruct k as [| |trackIds|trackId|], r as [resp|resp|]; cbn [resume] in Hstep;
      try discriminate; inversion Hstep.
    + apply writes_nothing. unfold generateMusic_resume.
      now rewrite submitted_resume_written.
    + apply writes_nothing. unfold extendTrack_resume.
      now rewrite submitted_resume_written.
    + set (w0 := with_inflight _ w).
      apply (writes_only_complete_trans w w0); [now apply writes_nothing|].
      apply pollForCompletion_resume_writes.
    + rewrite exec_then_ret. set (w0 := with_inflight _ w).
      exists (match error resp with
              | Some _ => []
              | None =>
                  match List.find (fun t => String.eqb (track_id t) trackId)
                          (default [] (default None (data resp))) with
                  | Some t => if is_complete t then [cache_entry t] else []
                  | None => []
                  end
              end).
      split; [rewrite getTrack_resume_written; reflexivity|].
      destruct (error resp); [constructor|].
      destruct (List.find _ _) as [t|]; [|constructor].
      destruct (is_complete t) eqn:Hc; repeat constructor. exact Hc.
    + now apply writes_nothing.
    + now apply writes_nothing.
    + now apply writes_nothing.
  - destruct (0 <=? ms)%Z; [|discriminate]. inversion Hstep. now apply writes_nothing.
Qed.

Lemma run_writes_only_complete cfg es : forall w w',
  run cfg es w = Some w' -> writes_only_complete w w'.
Proof.
  induction es as [|e es IH]; intros w w'; cbn [run].
  - intros [= <-]. now apply writes_nothing.
  - destruct (step cfg e w) as [w1|] eqn:Hstep; [|discriminate].
    intros Hrun. eapply writes_only_complete_trans.
    + eapply step_writes_only_complete, Hstep.
    + apply IH, Hrun.
Qed.

(** C3.  At polling completion the tracks written to the cache are
    exactly those of the reply whose status is [complete], each under
    the key of its id (a track that ended in [error] is not written); a
    reply that does not complete the batch, or a failed poll, writes
    nothing; [getTrack] writes the track it fetched when that track's
    status is [complete], and nothing otherwise; and whatever the
    events, every entry written to the cache is that of a track whose
    status is [complete]. *)
Theorem C3_cached_iff_complete (cfg : Options) (w : World)
    (trackIds : list string) (trackId : string)
    (response : SunoApiResponse (list SunoTrack)) :
  let updatedTracks := default [] (default None (data response)) in
  let polled := exec (pollForCompletion_resume cfg trackIds response) w in
  let fetched := exec (getTrack_resume cfg trackId response) w in
  let found := List.find (fun t => String.eqb (track_id t) trackId) updatedTracks in
  (error response = None -> forallb is_terminal updatedTracks = true ->
     written (trace polled)
     = written (trace w) ++ map cache_entry (List.filter is_complete updatedTracks)
     /\ (forall t, t ∈ updatedTracks -> track_status t = complete ->
           exists c : CachedTrack,
             storage polled !! getCacheKey (track_id t) = Some (Serialized c)
                     /\ track_status (cached_track c) = complete
                     /\ track_id (cached_track c) = track_id t)
     /\ (forall t, t ∈ updatedTracks -> track_status t = error_status ->
           ~ cache_entry t ∈ map cache_entry (List.filter is_complete updatedTracks))) /\
  (error response <> None \/ forallb is_terminal updatedTracks = false ->
     written (trace polled) = written (trace w) /\ storage polled = storage w) /\
  (error response = None ->
     written (trace fetched)
     = written (trace w)
       ++ match found with
          | Some t => if is_complete t then [cache_entry t] else []
          | None => []
          end) /\
  (error response <> None -> written (trace fetched) = written (trace w)) /\
  written (trace (exec (getTrack trackId) w)) = written (trace w) /\
  (forall es w', run cfg es w = Some w' -> writes_only_complete w w').
Proof.
  cbv zeta. repeat apply conj.
  - intros He Hall. rewrite poll_resume_completion by assumption.
    repeat apply conj.
    + now rewrite cacheAll_written.
    + intros t Ht Hst.
      set (w1 := with_state _ _).
      destruct (cacheAll_storage cfg
                  (List.filter is_complete (default [] (default None (data response))))
                  w1 t) as (c & Hc & Hmem & Hid).
      { apply list_elem_of_In, List.filter_In. split; [now apply list_elem_of_In|].
        unfold is_complete. now rewrite Hst. }
      exists c. repeat split; try assumption.
      apply list_elem_of_In, List.filter_In in Hmem as [_ Hcomplete].
      unfold is_complete in Hcomplete.
      now destruct (track_status (cached_track c)).
    + intros t Ht Hst Hin.
      apply list_elem_of_In, List.in_map_iff in Hin as (u & Heq & Hu).
      apply List.filter_In in Hu as [_ Hcomplete].
      unfold cache_entry in Heq. inversion Heq as [[Hkey Hut]]. subst u.
      unfold is_complete in Hcomplete. rewrite Hst in Hcomplete. discriminate.
  - intros [He|Hall].
    + destruct (error response) as [e|] eqn:Herr; [|congruence].
      erewrite poll_resume_failure by eassumption. split; reflexivity.
    + destruct (error response) as [e|] eqn:Herr.
      * erewrite poll_resume_failure by eassumption. split; reflexivity.
      * rewrite poll_resume_continuation by assumption. split; reflexivity.
  - intros He. rewrite getTrack_resume_written, He. reflexivity.
  - intros He. rewrite getTrack_resume_written.
    destruct (error response); [apply app_nil_r | congruence].
  - apply getTrack_written.
  - intros es w'. apply run_writes_only_complete.
Qed.

(** ** Instances *)


Lemma C1_progress_along_polling_witness :
  status (state (exec (pollForCompletion_resume default_options ["a"]
                         (ok_response [sample_track "a" complete]))
                   between_polls)) = completed /\
  progress (state (exec (pollForCompletion_resume default_options ["a"]
                           (ok_response [sample_track "a" complete]))
                     between_polls)) = 100%Q.
Proof.
  apply (proj1 (proj1 (proj2 (C1_progress_along_polling default_options between_polls))
                  ["a"] [sample_track "a" complete])).
  reflexivity.
Defined.

Lemma C2_cancel_between_polls_witness :
  timers between_polls = [(3, ["a"])] /\
  timers (exec cancelGeneration between_polls) = [] /\
  halted between_polls
    (with_clock 5000
       (with_inflight [] (exec cancelGeneration_finish (exec cancelGeneration between_polls)))).
Proof.
  split; [reflexivity|].
  destruct (C2_cancel_between_polls default_options between_polls
              (with_clock 5000
                 (with_inflight []
                    (exec cancelGeneration_finish
                       (exec cancelGeneration between_polls))))
              [Resolves 4 CancelReply; Elapses 5000])
    as (Htimers & Hhalted & _).
  - constructor.
  - repeat constructor.
  - repeat constructor.
  - reflexivity.
  - split; assumption.
Defined.

Lemma C3_cached_iff_complete_witness :
  written (trace (exec (pollForCompletion_resume default_options ["a"; "b"]
                          (ok_response [sample_track "a" complete;
                                        sample_track "b" error_status]))
                    fresh_world))
  = [cache_entry (sample_track "a" complete)].
Proof.
  apply (proj1 (proj1 (C3_cached_iff_complete default_options fresh_world ["a"; "b"] "a"
                         (ok_response [sample_track "a" complete;
                                       sample_track "b" error_status]))
                  eq_refl eq_refl)).
Defined.

Lemma C5_poll_budget_exhausted_witness :
  status (state (exec (pollForCompletion default_options ["a"]) budget_spent)) = failed /\
  error_message (state (exec (pollForCompletion default_options ["a"]) budget_spent))
  = Some timeout_message.
Proof.
  assert (Hmax : maxPollAttempts default_options <= pollAttemptsRef (state budget_spent))
    by (cbn; lia).
  split; apply (C5_poll_budget_exhausted default_options ["a"] budget_spent Hmax).
Defined.


Lemma C7_cacheTrack_retention_witness :
  cachedTracks (state (exec (cacheTrack default_options (sample_track "a" complete))
                         listing_a))
  = [Entry (fresh_entry (sample_track "a" complete) listing_a)].
Proof.
  assert (Hpos : 0 < maxCachedTracks default_options) by (cbn; lia).
  assert (Hsorted : newest_first (cachedTracks (state listing_a)))
    by (repeat constructor).
  assert (Hclock : Forall (stamped_by (clock listing_a))
                     (cachedTracks (state listing_a)))
    by (repeat constructor; cbn; lia).
  apply (proj2 (proj2 (proj2 (proj2 (proj2
           (C7_cacheTrack_retention default_options (sample_track "a" complete)
              listing_a Hpos Hsorted Hclock)))))).
  - cbn. lia.
  - constructor. reflexivity.
Defined.


Lemma C9_getCachedTrack_contract_witness :
  eval (getCachedTrack "a") an_hour_later = Some (Entry entry_a) /\
  exec (getCachedTrack "a") an_hour_later = an_hour_later.
Proof.
  apply (proj1 (C9_getCachedTrack_contract "a" an_hour_later) entry_a).
  - vm_compute. reflexivity.
  - vm_compute. discriminate.
Defined.

(** ** More on the remote-service wrapper *)

Lemma makeRequest_with_key {T} endpoint options (o : SunoApi.FetchOutcome T) s k :
  credential s k ->
  SunoApi.makeRequest endpoint options o s
  = (match SunoApi.attempt o with
     | inr r => r
     | inl (SunoApi.ThrownError m) => SunoApi.error_response "NETWORK_ERROR" m None
     | inl SunoApi.ThrownOther =>
         SunoApi.error_response "NETWORK_ERROR" SunoApi.unknown_network_error None
     end,
     SunoApi.send {| SunoApi.url := SunoApi.baseUrl +:+ endpoint;
                     SunoApi.authorization := "Bearer " +:+ k;
                     SunoApi.init := options |}
       (SunoApi.handleRateLimit s)).
Proof.
  intros [Hk Ht]. unfold SunoApi.makeRequest. rewrite Hk, Ht.
  destruct (SunoApi.attempt o) as [[m|]|r]; reflexivity.
Qed.

Lemma makeRequest_no_credential {T} endpoint options (o : SunoApi.FetchOutcome T) s :
  no_credential s ->
  SunoApi.makeRequest endpoint options o s = (no_api_key, s).
Proof.
  intros [H|H]; unfold SunoApi.makeRequest; rewrite H; reflexivity.
Qed.

Lemma handleRateLimit_stamp s :
  SunoApi.lastRequestTime (SunoApi.handleRateLimit s)
  = Z.max (SunoApi.now s) (SunoApi.lastRequestTime s + 1000) /\
  SunoApi.now (SunoApi.handleRateLimit s)
  = Z.max (SunoApi.now s) (SunoApi.lastRequestTime s + 1000).
Proof.
  unfold SunoApi.handleRateLimit, SunoApi.rateLimitDelay. cbn.
  destruct (Z.ltb_spec (SunoApi.now s - SunoApi.lastRequestTime s) 1000); lia.
Qed.

Lemma request_stamp {T} endpoint options (o : SunoApi.FetchOutcome T) s k :
  credential s k ->
  let s' := snd (SunoApi.makeRequest endpoint options o s) in
  SunoApi.lastRequestTime s'
  = Z.max (SunoApi.now s) (SunoApi.lastRequestTime s + 1000) /\
  SunoApi.now s' = Z.max (SunoApi.now s) (SunoApi.lastRequestTime s + 1000) /\
  SunoApi.apiKey s' = SunoApi.apiKey s /\
  SunoApi.sent s'
  = SunoApi.sent s ++ [{| SunoApi.url := SunoApi.baseUrl +:+ endpoint;
                          SunoApi.authorization := "Bearer " +:+ k;
                          SunoApi.init := options |}].
Proof.
  intros Hk. cbv zeta. rewrite (makeRequest_with_key endpoint options o s k Hk).
  cbn [snd]. destruct (handleRateLimit_stamp s) as [Hl Hn].
  unfold SunoApi.send. cbn [SunoApi.lastRequestTime SunoApi.now SunoApi.apiKey SunoApi.sent].
  repeat split; assumption.
Qed.

(** X1.  With a credential, a request is stamped at the later of the
    current time and one second after the previous stamp, and the clock
    is then at that stamp; so two consecutive requests, whatever time
    passes between them, are stamped at least 1000 ms apart. *)
Theorem X1_requests_one_second_apart {T1 T2} (s : SunoApi.Service) (k : string)
    endpoint1 options1 (o1 : SunoApi.FetchOutcome T1)
    endpoint2 options2 (o2 : SunoApi.FetchOutcome T2) (pause : nat) :
  credential s k ->
  let s1 := snd (SunoApi.makeRequest endpoint1 options1 o1 s) in
  let s2 := snd (SunoApi.makeRequest endpoint2 options2 o2 (SunoApi.sleep pause s1)) in
  SunoApi.lastRequestTime s1
  = Z.max (SunoApi.now s) (SunoApi.lastRequestTime s + 1000) /\
  SunoApi.now s1 = SunoApi.lastRequestTime s1 /\
  (SunoApi.lastRequestTime s1 + 1000 <= SunoApi.lastRequestTime s2)%Z /\
  (SunoApi.now s1 + Z.of_nat pause <= SunoApi.now s2)%Z.
Proof.
  intros Hk. cbv zeta.
  destruct (request_stamp endpoint1 options1 o1 s k Hk) as (Hl & Hn & Hkey & _).
  set (s1 := snd (SunoApi.makeRequest endpoint1 options1 o1 s)) in *.
  assert (Hk1 : credential (SunoApi.sleep pause s1) k).
  { destruct Hk as [Hk Ht]. split; [|exact Ht]. cbn. congruence. }
  destruct (request_stamp endpoint2 options2 o2 _ k Hk1) as (Hl2 & Hn2 & _).
  rewrite Hl2, Hn2. cbn [SunoApi.sleep SunoApi.lastRequestTime SunoApi.now].
  rewrite Hl, Hn. lia.
Qed.

(** X2.  Without a credential (no key, or the empty key) every
    operation that makes one request answers with the [NO_API_KEY]
    error and leaves the service as it was: nothing is sent and the
    rate-limit stamp does not move.  [pollTrackCompletion] answers
    likewise at its first attempt, except with no attempt allowed, where
    it reports [POLLING_TIMEOUT]. *)
Theorem X2_no_credential_no_request (s : SunoApi.Service) :
  no_credential s ->
  (forall prompt options o, SunoApi.generateMusic prompt options o s = (no_api_key, s)) /\
  (forall trackId o, SunoApi.getTrack trackId o s = (no_api_key, s)) /\
  (forall trackIds o, SunoApi.getTracks trackIds o s = (no_api_key, s)) /\
  (forall trackId prompt options o,
      SunoApi.extendTrack trackId prompt options o s = (no_api_key, s)) /\
  (forall prompt o, SunoApi.generateLyrics prompt o s = (no_api_key, s)) /\
  (forall T generationId (o : SunoApi.FetchOutcome T),
      SunoApi.cancelGeneration generationId o s = (no_api_key, s)) /\
  (forall T (o : SunoApi.FetchOutcome T), SunoApi.getQuota o s = (no_api_key, s)) /\
  (forall T (o : SunoApi.FetchOutcome T), SunoApi.checkApiStatus o s = (no_api_key, s)) /\
  (forall limit offset o,
      SunoApi.getGenerationHistory limit offset o s = (no_api_key, s)) /\
  (forall trackIds maxAttempts intervalMs net,
      SunoApi.pollTrackCompletion trackIds maxAttempts intervalMs net s
      = (SunoApi.Fulfilled
           (if Nat.eqb maxAttempts 0
            then SunoApi.error_response "POLLING_TIMEOUT"
                   SunoApi.polling_timeout_message None
            else no_api_key), s)).
Proof.
  intros Hno. repeat apply conj; intros;
    try (apply makeRequest_no_credential; exact Hno).
  unfold SunoApi.pollTrackCompletion. destruct maxAttempts as [|n]; [reflexivity|].
  cbn [SunoApi.pollLoop Nat.eqb]. unfold SunoApi.getTracks.
  rewrite makeRequest_no_credential by exact Hno. reflexivity.
Qed.

Lemma X2_no_credential_no_request_witness :
  SunoApi.generateMusic "upbeat pop about summer" no_options
    (SunoApi.HttpReply true 200 SunoApi.BodyNull) keyless_service
  = (no_api_key, keyless_service).
Proof.
  apply (proj1 (X2_no_credential_no_request keyless_service (or_introl eq_refl))).
Defined.

Lemma X1_requests_one_second_apart_witness :
  SunoApi.lastRequestTime
    (snd (SunoApi.makeRequest (T := unit) "/api/get_credits" SunoApi.no_init
            (SunoApi.HttpReply true 200 SunoApi.BodyNull) keyed_service))
  = 1000%Z.
Proof.
  apply (proj1 (X1_requests_one_second_apart (T1 := unit) (T2 := unit)
                  keyed_service "sk-test"
                  "/api/get_credits" SunoApi.no_init
                  (SunoApi.HttpReply true 200 SunoApi.BodyNull)
                  "/api/get_credits" SunoApi.no_init
                  (SunoApi.HttpReply true 200 SunoApi.BodyNull) 0
                  (conj eq_refl eq_refl))).
Defined.


Lemma makeRequest_outcome {T} endpoint options (o : SunoApi.FetchOutcome T) s :
  let r := fst (SunoApi.makeRequest endpoint options o s) in
  let s' := snd (SunoApi.makeRequest endpoint options o s) in
  (forall e, error r = Some e ->
     code e = "NO_API_KEY" \/ code e = "API_ERROR" \/ code e = "NETWORK_ERROR") /\
  length (SunoApi.sent s') <= length (SunoApi.sent s) + 1 /\
  (error r = None -> length (SunoApi.sent s') = length (SunoApi.sent s) + 1) /\
  (SunoApi.now s <= SunoApi.now s')%Z.
Proof.
  cbv zeta.
  destruct (SunoApi.apiKey s) as [k|] eqn:Hkey; [destruct (truthy k) eqn:Ht|].
  - assert (Hk : credential s k) by now split.
    destruct (request_stamp endpoint options o s k Hk) as (_ & Hn & _ & Hsent).
    rewrite Hsent, length_app, Hn. cbn [length].
    repeat split; try lia.
    rewrite (makeRequest_with_key endpoint options o s k Hk). cbn [fst].
    destruct o as [[m|]|okj stj [m|]|[] st [|v bm be]]; cbn; intros e [= <-]; cbn; auto.
  - unfold SunoApi.makeRequest. rewrite Hkey, Ht. cbn.
    repeat split; try lia; try discriminate. intros e [= <-]. now left.
  - unfold SunoApi.makeRequest. rewrite Hkey. cbn.
    repeat split; try lia; try discriminate. intros e [= <-]. now left.
Qed.

Lemma every_terminal_all elements :
  SunoApi.every_terminal elements = Some true -> Forall terminal_element elements.
Proof.
  induction elements as [|[t| |] rest IH]; cbn; intros H; try discriminate.
  - constructor.
  - destruct (is_terminal t) eqn:Ht; [|discriminate].
    constructor; [exists t; now split | now apply IH].
Qed.

Lemma allCompleted_all_terminal (response : SunoApiResponse SunoApi.TracksBody) :
  SunoApi.allCompleted (SunoApi.data_or_empty response) = Some true ->
  all_terminal response.
Proof.
  unfold all_terminal. destruct (SunoApi.data_or_empty response) as [elements|t]; cbn.
  - intros H. exists elements. split; [reflexivity | now apply every_terminal_all].
  - discriminate.
Qed.

Lemma pollLoop_outcome remaining : forall attempt trackIds intervalMs net s,
  let r := fst (SunoApi.pollLoop remaining attempt trackIds intervalMs net s) in
  let s' := snd (SunoApi.pollLoop remaining attempt trackIds intervalMs net s) in
  length (SunoApi.sent s') <= length (SunoApi.sent s) + remaining /\
  (forall response, r = SunoApi.Fulfilled response -> error response = None ->
     0 < remaining /\ all_terminal response) /\
  (forall response e, r = SunoApi.Fulfilled response ->
     error response = Some e -> code e = "POLLING_TIMEOUT" ->
     length (SunoApi.sent s') = length (SunoApi.sent s) + remaining) /\
  (SunoApi.now s <= SunoApi.now s')%Z.
Proof.
  induction remaining as [|n IH]; intros attempt trackIds intervalMs net s; cbv zeta.
  - cbn. split; [lia|]. split; [|split; [|lia]].
    + intros response [= <-]. discriminate.
    + intros response e _ _ _. lia.
  - cbn [SunoApi.pollLoop]. unfold SunoApi.getTracks.
    destruct (makeRequest_outcome ("/api/get?ids=" +:+ SunoApi.join_ids trackIds)
                SunoApi.no_init (net attempt) s) as (Hcodes & Hle & Heq & Hnow).
    destruct (SunoApi.makeRequest _ _ (net attempt) s) as [reply s1].
    cbn [fst snd] in *.
    destruct (error reply) as [e|] eqn:He.
    + cbn [fst snd]. split; [lia|]. split; [|split; [|lia]].
      * intros response [= <-]. congruence.
      * intros response e' [= <-] He' Hc. rewrite He in He'. inversion He'; subst.
        destruct (Hcodes e' eq_refl) as [H|[H|H]]; rewrite H in Hc; discriminate.
    + destruct (SunoApi.allCompleted _) as [[]|] eqn:Hall.
      * cbn [fst snd]. split; [lia|]. split; [|split; [|lia]].
        -- intros response [= <-] _. split; [lia|].
           now apply allCompleted_all_terminal.
        -- intros response e' [= <-] He'. congruence.
      * specialize (IH (S attempt) trackIds intervalMs net (SunoApi.sleep intervalMs s1)).
        cbv zeta in IH. destruct IH as (IHle & IHdata & IHtimeout & IHnow).
        cbn [SunoApi.sleep SunoApi.sent SunoApi.now] in *.
        specialize (Heq eq_refl).
        split; [lia|]. split; [|split; [|lia]].
        -- intros response Hr Hnone. split; [lia|]. now apply (IHdata response).
        -- intros response e' Hr He' Hc.
           rewrite (IHtimeout response e' Hr He' Hc). lia.
      * cbn [fst snd]. split; [lia|]. split; [|split; [|lia]]; discriminate.
Qed.

(** X4.  [pollTrackCompletion] sends at most [maxAttempts] requests and
    time never runs backwards in it.  When it answers with data, at
    least one attempt was allowed and every element of the answer is a
    track of a terminal status ([complete] or [error]).  It answers
    [POLLING_TIMEOUT] only after having sent exactly [maxAttempts]
    requests. *)
Theorem X4_pollTrackCompletion_bounded (s : SunoApi.Service)
    (trackIds : list string) (maxAttempts intervalMs : nat)
    (net : nat -> SunoApi.FetchOutcome SunoApi.TracksBody) :
  let r := fst (SunoApi.pollTrackCompletion trackIds maxAttempts intervalMs net s) in
  let s' := snd (SunoApi.pollTrackCompletion trackIds maxAttempts intervalMs net s) in
  length (SunoApi.sent s') <= length (SunoApi.sent s) + maxAttempts /\
  (forall response, r = SunoApi.Fulfilled response -> error response = None ->
     0 < maxAttempts /\ all_terminal response) /\
  (forall response e, r = SunoApi.Fulfilled response ->
     error response = Some e -> code e = "POLLING_TIMEOUT" ->
     length (SunoApi.sent s') = length (SunoApi.sent s) + maxAttempts) /\
  (SunoApi.now s <= SunoApi.now s')%Z.
Proof. apply pollLoop_outcome. Qed.

(** ** More on the track cache *)

Lemma clearCache_exec w :
  exec clearCache w
  = with_state (set_cachedTracks [])
      (foldl drop_key w (List.filter in_namespace (map_to_list (storage w)).*1)).
Proof. reflexivity. Qed.

Lemma namespace_keys (w : World) key :
  key ∈ List.filter in_namespace (map_to_list (storage w)).*1
  <-> in_namespace key = true /\ is_Some (storage w !! key).
Proof.
  rewrite list_elem_of_In, List.filter_In, <- list_elem_of_In, list_elem_of_fmap.
  split.
  - intros [([k v] & -> & Hin) Hns]. apply elem_of_map_to_list in Hin.
    split; [exact Hns | now exists v].
  - intros [Hns [v Hv]]. split; [|exact Hns].
    exists (key, v). split; [reflexivity | now apply elem_of_map_to_list].
Qed.

Lemma no_namespace_keys (w : World) :
  (forall key, in_namespace key = true -> storage w !! key = None) ->
  List.filter in_namespace (map_to_list (storage w)).*1 = [].
Proof.
  intros Hnone. apply elem_of_nil_inv. intros key Hin.
  apply namespace_keys in Hin as [Hns [v Hv]].
  rewrite (Hnone key Hns) in Hv. discriminate.
Qed.

(** X5.  [clearCache] deletes every key of the cache's namespace and no
    other key, empties the list, writes nothing, sends nothing and
    leaves the lifecycle alone; a refresh right after it lists nothing. *)
Theorem X5_clearCache_empties_namespace (cfg : Options) (w : World) :
  let w' := exec clearCache w in
  (forall key, storage w' !! key
               = if in_namespace key then None else storage w !! key) /\
  cachedTracks (state w') = [] /\
  cache_only w w' /\
  written (trace w') = written (trace w) /\
  cachedTracks (state (exec (refreshCachedTracks cfg) w')) = [] /\
  storage (exec (refreshCachedTracks cfg) w') = storage w'.
Proof.
  cbv zeta.
  assert (Hstore : forall key,
            storage (exec clearCache w) !! key
            = if in_namespace key then None else storage w !! key).
  { intros key. rewrite clearCache_exec. cbn [storage with_state].
    rewrite drop_keys_storage.
    destruct (in_namespace key) eqn:Hns.
    - destruct (storage w !! key) as [v|] eqn:Hv.
      + rewrite bool_decide_eq_true_2; [reflexivity|].
        apply namespace_keys. split; [exact Hns | now exists v].
      + now destruct (bool_decide _).
    - rewrite bool_decide_eq_false_2; [reflexivity|].
      rewrite namespace_keys. intros [Hns' _]. congruence. }
  assert (Hnone : List.filter in_namespace (map_to_list (storage (exec clearCache w))).*1
                  = []).
  { apply no_namespace_keys. intros key Hns. now rewrite Hstore, Hns. }
  repeat apply conj.
  - exact Hstore.
  - reflexivity.
  - apply clearCache_cache_only.
  - rewrite clearCache_exec. cbn [trace with_state].
    destruct (drop_keys_frame
                (List.filter in_namespace (map_to_list (storage w)).*1) w)
      as (_ & _ & _ & _ & Htr).
    rewrite Htr, written_app, written_removals. apply app_nil_r.
  - rewrite refreshCachedTracks_exec. cbv zeta. rewrite Hnone. cbn. apply take_nil.
  - rewrite refreshCachedTracks_exec. cbv zeta. rewrite Hnone. reflexivity.
Qed.

(** X6.  A track put in the cache is found again under its id for the
    next 24 hours, as the entry that was written; once more than 24
    hours have passed the lookup finds nothing and removes the key. *)
Theorem X6_cached_track_found_for_a_day (cfg : Options) (track : SunoTrack)
    (w : World) (elapsed : Z) :
  (0 <= elapsed)%Z ->
  let later := with_clock (clock w + elapsed)%Z (exec (cacheTrack cfg track) w) in
  step cfg (Elapses elapsed) (exec (cacheTrack cfg track) w) = Some later /\
  ((elapsed <= DAY_MS)%Z ->
     getCachedTrack (track_id track) later
     = (Some (Entry (fresh_entry track w)), later)) /\
  ((DAY_MS < elapsed)%Z ->
     eval (getCachedTrack (track_id track)) later = None /\
     storage (exec (getCachedTrack (track_id track)) later)
       !! getCacheKey (track_id track) = None).
Proof.
  intros Hpos. cbv zeta.
  split.
  { cbn [step]. destruct (Z.leb_spec 0 elapsed); [|lia].
    now rewrite (co_clock _ _ (cacheTrack_cache_only cfg track w)). }
  set (later := with_clock _ _).
  assert (Hstored : storage later !! getCacheKey (track_id track)
                    = Some (Serialized (fresh_entry track w))).
  { subst later. cbn [storage with_clock]. rewrite cacheTrack_storage.
    apply lookup_insert_eq. }
  assert (Hclock : clock later = (clock w + elapsed)%Z).
  { subst later. cbn [clock with_clock]. reflexivity. }
  clearbody later.
  split.
  - intros Hfresh.
    rewrite getCachedTrack_run, Hstored. unfold is_expired. cbn.
    rewrite Hclock.
    destruct (Z.ltb_spec (expiryTime (clock w)) (clock w + elapsed)) as [Hlt|Hge];
      [|reflexivity].
    unfold expiryTime, CACHE_EXPIRY_HOURS, DAY_MS in *. lia.
  - intros Hold.
    unfold eval, exec. rewrite getCachedTrack_run, Hstored. unfold is_expired. cbn.
    rewrite Hclock.
    destruct (Z.ltb_spec (expiryTime (clock w)) (clock w + elapsed)) as [Hlt|Hge].
    + cbn. split; [reflexivity | apply lookup_delete_eq].
    + unfold expiryTime, CACHE_EXPIRY_HOURS, DAY_MS in *. lia.
Qed.

(** ** Looking a track up *)

Lemma getCachedTrack_hit trackId (c : CachedTrack) w :
  storage w !! getCacheKey trackId = Some (Serialized c) ->
  (clock w - cached_at c <= DAY_MS)%Z ->
  getCachedTrack trackId w = (Some (Entry c), w).
Proof.
  intros Hc Hage. rewrite getCachedTrack_run, Hc.
  apply (unexpired_iff (clock w) c) in Hage. now rewrite Hage.
Qed.

(** X7.  [getTrack] is cache first: when an unexpired entry is stored
    under the track's key it returns that entry and nothing changes, in
    particular nothing is asked of the remote service; when the lookup
    finds nothing it sends exactly one request, for that track id, and
    waits for its reply. *)
Theorem X7_getTrack_cache_first (trackId : string) (w : World) :
  (forall c : CachedTrack,
      storage w !! getCacheKey trackId = Some (Serialized c) ->
      (clock w - cached_at c <= DAY_MS)%Z ->
      getTrack trackId w = (Found c, w)) /\
  (eval (getCachedTrack trackId) w = None ->
     let w' := exec (getTrack trackId) w in
     eval (getTrack trackId) w = Fetching /\
     remote_calls (trace w') = remote_calls (trace w) ++ [CallGetTrack trackId] /\
     inflight w' = inflight w ++ [(next_handle w, AwaitGetTrack trackId)] /\
     state w' = state w).
Proof.
  split.
  - intros c Hc Hage. unfold getTrack, bind.
    now rewrite (getCachedTrack_hit trackId c w Hc Hage).
  - intros Hmiss. cbv zeta.
    pose proof (getCachedTrack_cache_only trackId w) as Hco.
    assert (Hstate : state (exec (getCachedTrack trackId) w) = state w).
    { unfold exec. rewrite getCachedTrack_run.
      destruct (storage w !! getCacheKey trackId) as [[v| |]|]; cbn; try reflexivity.
      destruct (is_expired (clock w) v); reflexivity. }
    assert (Hrun : getTrack trackId w
                   = (Fetching,
                      exec (await (CallGetTrack trackId) (AwaitGetTrack trackId))
                        (exec (getCachedTrack trackId) w))).
    { unfold getTrack, bind, eval, exec in *.
      destruct (getCachedTrack trackId w) as [r w1]. cbn in *. now subst. }
    change (exec (getTrack trackId) w) with (snd (getTrack trackId w)).
    change (eval (getTrack trackId) w) with (fst (getTrack trackId w)).
    rewrite Hrun. cbn [fst snd].
    destruct Hco as [_ _ _ _ _ _ Htimers Hinflight Hnext _ Hremote].
    set (w1 := exec (getCachedTrack trackId) w) in *. clearbody w1.
    unfold exec, await, modify. cbn [snd trace inflight state].
    rewrite remote_calls_app, Hremote, Hinflight, Hnext, Hstate.
    repeat split.
Qed.

Lemma exec_ret {A} (a : A) w : exec (ret a) w = w.
Proof. reflexivity. Qed.

Lemma eval_ret {A} (a : A) w : eval (ret a) w = a.
Proof. reflexivity. Qed.

(** X8.  The reply to [getTrack]: the track whose id was asked for is
    returned whatever its status; when it is complete it is cached, so
    that the next [getTrack] for this id is answered from the cache
    without a request; when it is not complete, or when the reply does
    not list the id, the store is left as it was. *)
Theorem X8_getTrack_reply (cfg : Options) (trackId : string)
    (ts : list SunoTrack) (w : World) :
  let found := List.find (fun t => String.eqb (track_id t) trackId) ts in
  let r := eval (getTrack_resume cfg trackId (ok_response ts)) w in
  let w' := exec (getTrack_resume cfg trackId (ok_response ts)) w in
  r = found /\
  (forall t, found = Some t ->
     track_id t = trackId /\
     (is_complete t = true ->
        getTrack trackId w' = (Found (fresh_entry t w), w')) /\
     (is_complete t = false -> w' = w)) /\
  (found = None -> w' = w).
Proof.
  cbv zeta. unfold getTrack_resume. cbn [error ok_response data from_option id].
  destruct (List.find _ ts) as [t|] eqn:Hfind.
  - rewrite eval_bind, exec_bind. cbv beta. rewrite eval_ret, !exec_ret.
    split; [reflexivity|]. split; [|discriminate].
    intros t' [= <-].
    apply List.find_some in Hfind as [_ Hid]. apply String.eqb_eq in Hid.
    split; [exact Hid|]. split.
    + intros Hc. rewrite Hc. cbv iota.
      unfold getTrack, bind.
      rewrite (getCachedTrack_hit trackId (fresh_entry t w)
                 (exec (cacheTrack cfg t) w)); [reflexivity | |].
      * rewrite cacheTrack_storage, <- Hid. apply lookup_insert_eq.
      * rewrite (co_clock _ _ (cacheTrack_cache_only cfg t w)).
        unfold fresh_entry, DAY_MS. cbn. lia.
    + intros Hc. rewrite Hc. reflexivity.
  - repeat split; discriminate.
Qed.

(** ** An invariant of the cache *)

Lemma getCacheKey_in_namespace trackId : in_namespace (getCacheKey trackId) = true.
Proof. destruct trackId; reflexivity. Qed.

Lemma sound_entry_later t t' v : (t <= t')%Z -> sound_entry t v -> sound_entry t' v.
Proof. intros Ht (c & -> & Hc & Hat). exists c. repeat split; [exact Hc | lia]. Qed.

Lemma sound_entry_stamped t v : sound_entry t v -> stamped_by t v.
Proof. intros (c & -> & _ & Hat). exact Hat. Qed.

Lemma invariant_frame cfg w w' :
  storage w' = storage w ->
  cachedTracks (state w') = cachedTracks (state w) ->
  clock w' = clock w ->
  cache_invariant cfg w -> cache_invariant cfg w'.
Proof.
  unfold cache_invariant, store_sound, listing_sound.
  intros -> -> ->. trivial.
Qed.

Lemma invariant_drop_keys cfg keys w :
  cache_invariant cfg w -> cache_invariant cfg (foldl drop_key w keys).
Proof.
  intros [Hstore Hlist].
  destruct (drop_keys_frame keys w) as (Hs & Hc & _).
  split.
  - intros key v Hns. rewrite drop_keys_storage, Hc.
    destruct (bool_decide _); [discriminate | now apply Hstore].
  - unfold listing_sound. rewrite Hs, Hc. exact Hlist.
Qed.

Lemma NoDup_fmap_filter {A B} (f : A -> B) (p : A -> bool) l :
  NoDup (f <$> l) -> NoDup (f <$> List.filter p l).
Proof.
  induction l as [|x l IH]; cbn; [trivial|].
  rewrite NoDup_cons. intros [Hx Hl].
  destruct (p x); [|now apply IH].
  cbn. rewrite NoDup_cons. split; [|now apply IH].
  rewrite list_elem_of_fmap in *. intros (y & Hy & Hin).
  apply Hx. exists y. split; [exact Hy|].
  apply list_elem_of_In, List.filter_In in Hin. now apply list_elem_of_In.
Qed.

Lemma NoDup_fmap_take {A B} (f : A -> B) n l :
  NoDup (f <$> l) -> NoDup (f <$> take n l).
Proof.
  intros H. rewrite fmap_take. exact (sublist_NoDup _ _ H (sublist_take _ _)).
Qed.

Lemma invariant_cacheTrack cfg track w :
  cache_invariant cfg w -> is_complete track = true ->
  cache_invariant cfg (exec (cacheTrack cfg track) w).
Proof.
  intros [Hstore (Hlen & Hsorted & Hall & Hnodup)] Hcomplete.
  rewrite cacheTrack_exec. split.
  - intros key v Hns. cbn [storage with_state with_storage clock with_entropy].
    destruct (decide (getCacheKey (track_id track) = key)) as [<-|Hne].
    + rewrite lookup_insert_eq. intros [= <-]. split; [|reflexivity].
      exists (fresh_entry track w). repeat split; [exact Hcomplete | cbn; lia].
    + rewrite lookup_insert_ne by exact Hne. now apply Hstore.
  - unfold listing_sound.
    cbn [state with_state set_cachedTracks cachedTracks clock with_storage with_entropy].
    set (entry := Entry (fresh_entry track w)).
    set (others := List.filter (fun c => negb (same_id (track_id track) c))
                     (cachedTracks (state w))).
    assert (Hothers : Forall (sound_entry (clock w)) others).
    { rewrite Forall_forall in *. intros c Hc.
      apply list_elem_of_In, List.filter_In in Hc as [Hc _].
      now apply Hall, list_elem_of_In. }
    repeat apply conj.
    + rewrite length_take. lia.
    + apply newest_first_take. constructor.
      * now apply newest_first_filter.
      * eapply List.Forall_impl; [|exact Hothers]. cbn.
        intros c (c' & -> & _ & Hat). exact Hat.
    + apply Forall_take. constructor; [|exact Hothers].
      exists (fresh_entry track w). repeat split; [exact Hcomplete | cbn; lia].
    + apply NoDup_fmap_take. cbn [fmap list_fmap]. rewrite NoDup_cons. split.
      * rewrite list_elem_of_fmap. intros (c & Hid & Hc).
        pose proof (filter_rejects (same_id (track_id track))
                      (cachedTracks (state w))) as Hrej.
        rewrite Forall_forall in Hrej. specialize (Hrej c Hc).
        unfold same_id in Hrej. cbn in Hid. rewrite <- Hid in Hrej.
        now rewrite String.eqb_refl in Hrej.
      * now apply NoDup_fmap_filter.
Qed.

Lemma invariant_cacheAll cfg ts : forall w,
  cache_invariant cfg w -> Forall (fun t => is_complete t = true) ts ->
  cache_invariant cfg (exec (cacheAll cfg ts) w).
Proof.
  induction ts as [|t ts IH]; intros w Hinv Hts; [exact Hinv|].
  inversion Hts as [|? ? Ht Hrest]; subst.
  cbn [cacheAll]. rewrite exec_bind. apply IH; [|exact Hrest].
  now apply invariant_cacheTrack.
Qed.

(** Values kept from distinct keys of a sound store have distinct ids. *)
Lemma kept_ids_distinct (w : World) (t : Z) keys :
  store_sound w -> NoDup keys -> Forall (fun k => in_namespace k = true) keys ->
  let valid := omap (keeps t) (map (fun k => (k, storage w !! k)) keys) in
  NoDup (id_of <$> valid) /\
  forall v, v ∈ valid -> exists i, id_of v = Some i /\ getCacheKey i ∈ keys.
Proof.
  intros Hstore Hnodup Hns. cbv zeta.
  induction Hnodup as [|k keys Hk Hkeys IH]; cbn.
  - split; [constructor | intros c Hc; now apply elem_of_nil in Hc].
  - apply Forall_cons in Hns as [Hnsk Hns]. destruct (IH Hns) as [IHn IHk].
    assert (Hrest : forall v,
              v ∈ omap (keeps t) (map (fun k => (k, storage w !! k)) keys) ->
              exists i, id_of v = Some i /\ getCacheKey i ∈ k :: keys).
    { intros v Hv. destruct (IHk v Hv) as (i & Hi & Hin).
      exists i. split; [exact Hi | now right]. }
    unfold keeps at 1 3. cbn [snd].
    destruct (storage w !! k) as [[v| |]|] eqn:Hv; cbn; try (split; assumption).
    destruct (is_expired t v); cbn; [split; assumption|].
    destruct (Hstore k v Hnsk Hv) as (_ & Hkey).
    destruct (id_of v) as [i|] eqn:Hid; [|discriminate].
    assert (Hkey' : k = getCacheKey i)
      by (cbn [fmap option_fmap option_map] in Hkey; congruence).
    clear Hkey. rename Hkey' into Hkey.
    split.
    + rewrite NoDup_cons. split; [|exact IHn].
      rewrite list_elem_of_fmap. intros (v' & Hid' & Hv').
      destruct (IHk v' Hv') as (i' & Hi' & Hin).
      apply Hk. rewrite Hkey. congruence.
    + intros v' Hv'. apply elem_of_cons in Hv' as [->|Hv'].
      * exists i. split; [exact Hid | rewrite <- Hkey; left].
      * now apply Hrest.
Qed.

Lemma invariant_refresh cfg w :
  store_sound w -> cache_invariant cfg (exec (refreshCachedTracks cfg) w).
Proof.
  intros Hstore. rewrite refreshCachedTracks_exec. cbv zeta.
  set (keys := List.filter in_namespace (map_to_list (storage w)).*1).
  set (items := map (fun k => (k, storage w !! k)) keys).
  set (purged := (List.filter (purges (clock w)) items).*1).
  destruct (drop_keys_frame purged w) as (Hs & Hc & _).
  assert (Hkeys : NoDup keys).
  { subst keys. apply NoDup_ListNoDup, List.NoDup_filter, NoDup_ListNoDup.
    apply NoDup_fst_map_to_list. }
  assert (Hns : Forall (fun k => in_namespace k = true) keys).
  { subst keys. rewrite Forall_forall. intros k Hk.
    apply list_elem_of_In, List.filter_In in Hk. tauto. }
  destruct (kept_ids_distinct w (clock w) keys Hstore Hkeys Hns) as [Hnodup _].
  fold items in Hnodup.
  assert (Hvalid : Forall (sound_entry (clock w)) (omap (keeps (clock w)) items)).
  { rewrite Forall_forall. intros v Hin.
    apply list_elem_of_omap in Hin as ([k v'] & Hin & Hkeep).
    assert (Hk : in_namespace k = true).
    { rewrite Forall_forall in Hns. apply Hns.
      apply list_elem_of_In, List.in_map_iff in Hin as (k' & Heq & Hk').
      inversion Heq; subst. now apply list_elem_of_In. }
    apply items_lookup in Hin. subst v'. unfold keeps in Hkeep. cbn [snd] in Hkeep.
    destruct (storage w !! k) as [[v'| |]|] eqn:Hv; try discriminate.
    destruct (is_expired (clock w) v'); [discriminate|].
    injection Hkeep as <-. now destruct (Hstore k v' Hk Hv). }
  assert (Hdated : Forall (fun v => is_Some (time_of v))
                     (omap (keeps (clock w)) items)).
  { eapply List.Forall_impl; [|exact Hvalid]. cbn.
    intros v (c & -> & _). eexists. reflexivity. }
  split.
  - intros key v Hk. cbn [storage with_state clock]. rewrite drop_keys_storage, Hc.
    destruct (bool_decide _); [discriminate | now apply Hstore].
  - unfold listing_sound.
    cbn [state with_state set_cachedTracks cachedTracks clock]. rewrite Hc.
    repeat apply conj.
    + rewrite length_take. lia.
    + now apply newest_first_take, sort_newest_first_sorted.
    + apply Forall_take. rewrite Forall_forall in *. intros c Hin.
      apply Hvalid. now apply sort_newest_first_elem.
    + apply NoDup_fmap_take. now rewrite sort_newest_first_perm.
Qed.

Lemma invariant_getCachedTrack cfg trackId w :
  cache_invariant cfg w -> cache_invariant cfg (exec (getCachedTrack trackId) w).
Proof.
  intros Hinv. unfold exec. rewrite getCachedTrack_run.
  destruct (storage w !! getCacheKey trackId) as [[v| |]|]; cbn; try exact Hinv.
  destruct (is_expired (clock w) v); cbn; [|exact Hinv].
  apply (invariant_drop_keys cfg [getCacheKey trackId] w Hinv).
Qed.

Lemma invariant_pollForCompletion cfg trackIds w :
  cache_invariant cfg w -> cache_invariant cfg (exec (pollForCompletion cfg trackIds) w).
Proof.
  destruct (Nat.le_gt_cases (maxPollAttempts cfg) (pollAttemptsRef (state w))).
  - rewrite poll_exhausted by assumption. now apply (invariant_frame cfg w).
  - rewrite poll_sends by assumption. now apply (invariant_frame cfg w).
Qed.

Lemma invariant_submitted_resume cfg no_data response w :
  cache_invariant cfg w ->
  cache_invariant cfg (exec (submitted_resume cfg no_data response) w).
Proof.
  intros Hinv. unfold submitted_resume.
  destruct (error response) as [e|]; [now apply (invariant_frame cfg w)|].
  destruct (default None (data response)) as [generation|];
    [|now apply (invariant_frame cfg w)].
  rewrite !exec_bind.
  destruct (autoStartPolling cfg); [|now apply (invariant_frame cfg w)].
  apply invariant_pollForCompletion. now apply (invariant_frame cfg w).
Qed.

Lemma invariant_poll_resume cfg trackIds response w :
  cache_invariant cfg w ->
  cache_invariant cfg (exec (pollForCompletion_resume cfg trackIds response) w).
Proof.
  intros Hinv.
  destruct (error response) as [e|] eqn:He.
  - erewrite poll_resume_failure by eassumption. now apply (invariant_frame cfg w).
  - destruct (forallb is_terminal (default [] (default None (data response))))
      eqn:Hall.
    + rewrite poll_resume_completion by assumption.
      apply invariant_cacheAll; [now apply (invariant_frame cfg w)|].
      rewrite Forall_forall. intros t Ht.
      apply list_elem_of_In, List.filter_In in Ht. tauto.
    + rewrite poll_resume_continuation by assumption. now apply (invariant_frame cfg w).
Qed.

Lemma invariant_getTrack_resume cfg trackId response w :
  cache_invariant cfg w ->
  cache_invariant cfg (exec (getTrack_resume cfg trackId response) w).
Proof.
  intros Hinv. unfold getTrack_resume.
  destruct (error response) as [e|]; [now apply (invariant_frame cfg w)|].
  destruct (List.find _ _) as [t|]; [|exact Hinv].
  rewrite exec_bind. cbv beta. rewrite exec_ret.
  destruct (is_complete t) eqn:Hc; [now apply invariant_cacheTrack | exact Hinv].
Qed.

Lemma invariant_step cfg e w w' :
  cache_invariant cfg w -> step cfg e w = Some w' -> cache_invariant cfg w'.
Proof.
  intros Hinv.
  destruct e as [prompt options|trackId prompt options|trackId| | | | | |h|h r|ms];
    cbn [step]; intros Hstep.
  - inversion Hstep. now apply (invariant_frame cfg w).
  - inversion Hstep. now apply (invariant_frame cfg w).
  - inversion Hstep. unfold getTrack. rewrite exec_bind.
    pose proof (invariant_getCachedTrack cfg trackId w Hinv) as Hlookup.
    destruct (eval (getCachedTrack trackId) w) as [v|];
      [destruct (is_truthy v); [exact Hlookup|]|];
      rewrite exec_bind; cbv beta; rewrite exec_ret;
      revert Hlookup; now apply invariant_frame.
  - inversion Hstep. unfold exec, cancelGeneration, bind, read.
    destruct (pollTimeoutRef (state w)) as [h|]; cbn;
      (destruct (generationId (state w)) as [g|]; [destruct (truthy g)|]); cbn;
      now apply (invariant_frame cfg w).
  - inversion Hstep. now apply (invariant_frame cfg w).
  - inversion Hstep. now apply (invariant_frame cfg w).
  - inversion Hstep. rewrite clearCache_exec.
    destruct (invariant_drop_keys cfg
                (List.filter in_namespace (map_to_list (storage w)).*1) w Hinv)
      as [Hstore _].
    destruct (drop_keys_frame
                (List.filter in_namespace (map_to_list (storage w)).*1) w)
      as (_ & Hc & _).
    split; [exact Hstore|].
    unfold listing_sound. cbn. repeat split; try constructor. lia.
  - inversion Hstep. apply invariant_refresh, Hinv.
  - destruct (lookup_handle h (timers w)) as [trackIds|]; [|discriminate].
    inversion Hstep. apply invariant_pollForCompletion. now apply (invariant_frame cfg w).
  - destruct (lookup_handle h (inflight w)) as [k|]; [|discriminate].
    set (w0 := with_inflight (remove_handle h (inflight w)) w) in *.
    assert (Hinv0 : cache_invariant cfg w0) by now apply (invariant_frame cfg w).
    destruct k as [| |trackIds|trackId|], r as [resp|resp|]; cbn [resume] in Hstep;
      try discriminate; inversion Hstep.
    + now apply invariant_submitted_resume.
    + now apply invariant_submitted_resume.
    + now apply invariant_poll_resume.
    + rewrite exec_then_ret. now apply invariant_getTrack_resume.
    + revert Hinv0. now apply invariant_frame.
    + revert Hinv0. now apply invariant_frame.
    + revert Hinv0. now apply invariant_frame.
  - destruct (Z.leb_spec 0 ms); [|discriminate]. inversion Hstep.
    destruct Hinv as [Hstore (Hlen & Hsorted & Hall & Hnodup)]. split.
    + intros key v Hns Hv. destruct (Hstore key v Hns Hv) as (Hsound & Hkey).
      split; [|exact Hkey]. cbn [clock with_clock].
      apply (sound_entry_later (clock w)); [lia | exact Hsound].
    + unfold listing_sound. cbn. repeat split; try assumption.
      eapply List.Forall_impl; [|exact Hall]. cbn. intros v.
      apply sound_entry_later. lia.
Qed.

(** X9.  The cache keeps itself consistent.  Starting from a store in
    which every JSON value held under a key of the cache's namespace is
    a cached track that sits under the key of its own track id, belongs
    to a complete track and is stamped no later than the clock (the
    empty store, for one), after any sequence of events the store is
    again such, and the list holds at most [maxCachedTracks] values,
    newest first, all of them cached tracks of complete tracks stamped
    no later than the clock, and no two of the same track id.  A lookup
    then returns only an unexpired cached track of the id asked for, of
    a complete track. *)
Theorem X9_cache_stays_consistent (cfg : Options) (es : list Event) (w w' : World) :
  cache_invariant cfg w ->
  run cfg es w = Some w' ->
  cache_invariant cfg w' /\
  (forall trackId v,
      eval (getCachedTrack trackId) w' = Some v ->
      exists c, v = Entry c /\
                track_id (cached_track c) = trackId /\
                track_status (cached_track c) = complete /\
                (0 <= clock w' - cached_at c <= DAY_MS)%Z).
Proof.
  intros Hinv Hrun.
  assert (Hinv' : cache_invariant cfg w').
  { revert w Hinv Hrun. induction es as [|e es IH]; intros w Hinv; cbn [run].
    - now intros [= <-].
    - destruct (step cfg e w) as [w1|] eqn:Hstep; [|discriminate].
      apply IH. eapply invariant_step; eassumption. }
  split; [exact Hinv'|].
  intros trackId v. unfold eval. rewrite getCachedTrack_run.
  destruct (storage w' !! getCacheKey trackId) as [[v'| |]|] eqn:Hv; cbn;
    try discriminate.
  destruct (is_expired (clock w') v') eqn:Hexp; cbn; [discriminate|].
  intros [= <-]. destruct Hinv' as [Hstore _].
  destruct (Hstore _ _ (getCacheKey_in_namespace trackId) Hv)
    as ((c & -> & Hcomplete & Hstamp) & Hkey).
  assert (Hid : trackId = track_id (cached_track c)).
  { apply getCacheKey_inj. cbn [id_of fmap option_fmap option_map] in Hkey.
    congruence. }
  apply unexpired_iff in Hexp. cbn in Hexp.
  exists c. repeat split; try lia; [congruence|].
  unfold is_complete in Hcomplete. now destruct (track_status (cached_track c)).
Qed.

Lemma initial_world_consistent cfg t : cache_invariant cfg (initial_world ∅ t).
Proof.
  split.
  - intros key v _ Hv. cbn in Hv. now rewrite lookup_empty in Hv.
  - unfold listing_sound. cbn. repeat split; try constructor. lia.
Qed.

(** ** The attempt budget is exact *)

Lemma lookup_handle_single {A} h (a : A) : lookup_handle h [(h, a)] = Some a.
Proof. cbn. now rewrite Nat.eqb_refl. Qed.

Lemma remove_handle_single {A} h (a : A) : remove_handle h [(h, a)] = [].
Proof. unfold remove_handle. cbn. now rewrite Nat.eqb_refl. Qed.

(** One round of a stalled generation: the reply, then the timer. *)
Lemma stalled_round cfg w h trackIds ts :
  awaiting_poll w h trackIds ->
  forallb is_terminal ts = false ->
  exists w2,
    run cfg [Resolves h (TracksReply (ok_response ts)); TimerFires (S h)] w = Some w2 /\
    pollAttemptsRef (state w2) = S (pollAttemptsRef (state w)) /\
    tracks (state w2) = ts /\
    storage w2 = storage w /\
    timers w2 = [] /\
    (S (pollAttemptsRef (state w)) < maxPollAttempts cfg ->
       awaiting_poll w2 (S (S h)) trackIds /\
       status (state w2) = status (state w) /\
       remote_calls (trace w2) = remote_calls (trace w) ++ [CallGetTracks trackIds]) /\
    (maxPollAttempts cfg <= S (pollAttemptsRef (state w)) ->
       inflight w2 = [] /\
       status (state w2) = failed /\
       error_message (state w2) = Some timeout_message /\
       remote_calls (trace w2) = remote_calls (trace w)).
Proof.
  intros (Hin & Ht & Hn) Hall. cbn [run step].
  rewrite Hin, lookup_handle_single. cbn [resume].
  rewrite poll_resume_continuation by (cbn; auto).
  cbn [timers with_inflight next_handle inflight state storage clock entropy trace].
  rewrite Ht, Hn, remove_handle_single. cbn [app].
  rewrite lookup_handle_single, remove_handle_single.
  set (w1 := with_timers [] _).
  destruct (Nat.le_gt_cases (maxPollAttempts cfg) (S (pollAttemptsRef (state w))))
    as [Hmax|Hmax].
  - eexists. split; [reflexivity|].
    rewrite (poll_exhausted cfg trackIds w1) by exact Hmax.
    cbn. repeat split; try reflexivity; intros; try lia; repeat split.
  - eexists. split; [reflexivity|].
    rewrite (poll_sends cfg trackIds w1) by exact Hmax.
    cbn. repeat split; try reflexivity; intros; try lia.
    unfold awaiting_poll. cbn. rewrite ?remote_calls_app. repeat split.
Qed.

Lemma run_app cfg es1 es2 w :
  run cfg (es1 ++ es2) w
  = match run cfg es1 w with
    | Some w1 => run cfg es2 w1
    | None => None
    end.
Proof.
  revert w. induction es1 as [|e es1 IH]; intros w; cbn [run app]; [reflexivity|].
  destruct (step cfg e w); [apply IH | reflexivity].
Qed.

Lemma stalled_generation_fails cfg trackIds replies : forall w h,
  awaiting_poll w h trackIds ->
  Forall (fun ts => forallb is_terminal ts = false) replies ->
  replies <> [] ->
  pollAttemptsRef (state w) + length replies = maxPollAttempts cfg ->
  exists w',
    run cfg (stalled_rounds replies h) w = Some w' /\
    status (state w') = failed /\
    error_message (state w') = Some timeout_message /\
    pollAttemptsRef (state w') = maxPollAttempts cfg /\
    Some (tracks (state w')) = last replies /\
    timers w' = [] /\ inflight w' = [] /\
    storage w' = storage w /\
    remote_calls (trace w')
    = remote_calls (trace w) ++ replicate (length replies - 1) (CallGetTracks trackIds).
Proof.
  induction replies as [|ts replies IH]; intros w h Hw Hall Hne Hbudget;
    [contradiction|].
  inversion Hall as [|? ? Hts Hrest]; subst.
  change (stalled_rounds (ts :: replies) h)
    with ([Resolves h (TracksReply (ok_response ts)); TimerFires (S h)]
          ++ stalled_rounds replies (S (S h))).
  rewrite run_app.
  destruct (stalled_round cfg w h trackIds ts Hw Hts)
    as (w2 & Hrun & Hattempts & Htracks & Hstorage & Htimers & Hmore & Hlast).
  rewrite Hrun. cbn [length] in Hbudget.
  destruct replies as [|ts2 replies].
  - cbn [stalled_rounds run]. exists w2. split; [reflexivity|].
    destruct Hlast as (Hin & Hs & He & Hr); [cbn in Hbudget; lia|].
    cbn in Hbudget. cbn [last length replicate Nat.sub].
    rewrite app_nil_r. repeat split; try assumption; try congruence. lia.
  - destruct Hmore as (Hw2 & _ & Hr); [cbn [length] in Hbudget; lia|].
    destruct (IH w2 (S (S h)) Hw2 Hrest) as (w' & Hrun' & Hs & He & Ha & Hl & Ht & Hi & Hst & Hrc).
    + discriminate.
    + rewrite Hattempts. cbn [length] in *. lia.
    + exists w'. split; [exact Hrun'|].
      repeat split; try assumption; try congruence.
      rewrite Hrc, Hr, <- app_assoc. cbn [length Nat.sub replicate app].
      now rewrite Nat.sub_0_r.
Qed.

(** X10.  The attempt budget is exact.  When the first poll of a
    generation is in flight, the attempt counter is 0 and every reply
    leaves some track short of a terminal status, then after
    [maxPollAttempts] replies, each followed by the timer it schedules,
    the manager is in the error state with the timeout message, nothing
    is pending any more, the store is untouched, and exactly
    [maxPollAttempts] requests were made for the generation in all (the
    one in flight and [maxPollAttempts - 1] more). *)
Theorem X10_stalled_generation_times_out (cfg : Options) (trackIds : list string)
    (replies : list (list SunoTrack)) (w : World) (h : nat) :
  awaiting_poll w h trackIds ->
  pollAttemptsRef (state w) = 0 ->
  Forall (fun ts => forallb is_terminal ts = false) replies ->
  length replies = maxPollAttempts cfg ->
  0 < maxPollAttempts cfg ->
  exists w',
    run cfg (stalled_rounds replies h) w = Some w' /\
    status (state w') = failed /\
    error_message (state w') = Some timeout_message /\
    timers w' = [] /\ inflight w' = [] /\
    storage w' = storage w /\
    remote_calls (trace w')
    = remote_calls (trace w)
      ++ replicate (maxPollAttempts cfg - 1) (CallGetTracks trackIds).
Proof.
  intros Hw Hzero Hall Hlen Hpos.
  destruct (stalled_generation_fails cfg trackIds replies w h Hw Hall)
    as (w' & Hrun & Hs & He & _ & _ & Ht & Hi & Hst & Hrc).
  - intros ->. cbn in Hlen. lia.
  - lia.
  - exists w'. rewrite <- Hlen. auto 10.
Qed.

(** ** Cancelling, lyrics, extensions *)

(** X11.  [cancelGeneration] never touches the track list, the error
    message, the attempt counter, the cached list or the store, and it
    empties the timeout ref.  With a non-empty generation id it sends
    exactly one cancel request, for that id, and leaves status, progress
    and generation id as they are until the reply arrives; without one
    it sends nothing and resets at once to [idle], progress 0 and no
    generation id.  The continuation after the reply makes the same
    reset. *)
Theorem X11_cancel_notifies_only_with_id (w : World) :
  let w' := exec cancelGeneration w in
  (tracks (state w') = tracks (state w) /\
   error_message (state w') = error_message (state w) /\
   pollAttemptsRef (state w') = pollAttemptsRef (state w) /\
   cachedTracks (state w') = cachedTracks (state w) /\
   storage w' = storage w /\
   pollTimeoutRef (state w') = None) /\
  (forall g, generationId (state w) = Some g -> truthy g = true ->
     remote_calls (trace w') = remote_calls (trace w) ++ [CallCancelGeneration g] /\
     inflight w' = inflight w ++ [(next_handle w, AwaitCancel)] /\
     status (state w') = status (state w) /\
     progress (state w') = progress (state w) /\
     generationId (state w') = Some g) /\
  (generationId (state w) = None \/ generationId (state w) = Some "" ->
     remote_calls (trace w') = remote_calls (trace w) /\
     inflight w' = inflight w /\
     status (state w') = idle /\
     progress (state w') = 0%Q /\
     generationId (state w') = None) /\
  (status (state (exec cancelGeneration_finish w')) = idle /\
   progress (state (exec cancelGeneration_finish w')) = 0%Q /\
   generationId (state (exec cancelGeneration_finish w')) = None).
Proof.
  cbv zeta. unfold exec, cancelGeneration, bind, read.
  destruct (pollTimeoutRef (state w)) as [h|] eqn:Href; cbn;
    (destruct (generationId (state w)) as [g|] eqn:Hg;
     [destruct (truthy g) eqn:Ht|]); cbn; rewrite ?Href;
    (split; [repeat split|]);
    (split; [intros g' [= <-] Ht'; try congruence;
             rewrite remote_calls_app; repeat split; exact Hg
            | ]);
    (split; [intros [Hn|Hn]; try discriminate;
             try (injection Hn as ->; discriminate);
             repeat split
            | repeat split]).
Qed.

(** X12.  The reply to [generateLyrics]: the text is returned exactly
    when the reply has no error and its data holds a non-empty text; an
    error reply puts its message in the error cell and returns nothing;
    a reply without error changes nothing at all, even when it brings
    no text.  In every case status, progress, track list, generation
    id, cache, timers and pending requests stay as they were. *)
Theorem X12_lyrics_reply (response : SunoApiResponse LyricsResponse) (w : World) :
  let r := eval (generateLyrics_resume response) w in
  let w' := exec (generateLyrics_resume response) w in
  (forall text,
      r = Some text <->
      error response = None /\ text <> "" /\
      exists lyrics, data response = Some (Some lyrics) /\ lyrics_text lyrics = text) /\
  (error response = None -> w' = w) /\
  (forall e, error response = Some e ->
             r = None /\ error_message (state w') = Some (message e)) /\
  (status (state w') = status (state w) /\
   progress (state w') = progress (state w) /\
   tracks (state w') = tracks (state w) /\
   generationId (state w') = generationId (state w) /\
   cachedTracks (state w') = cachedTracks (state w) /\
   storage w' = storage w /\ timers w' = timers w /\
   inflight w' = inflight w /\ trace w' = trace w).
Proof.
  cbv zeta. unfold generateLyrics_resume.
  destruct (error response) as [e|].
  - cbn. split; [|split; [|split]].
    + intros text. split; [discriminate | intros [? _]; discriminate].
    + discriminate.
    + intros e' [= <-]. split; reflexivity.
    + repeat split.
  - rewrite eval_ret, exec_ret.
    split; [|repeat split; discriminate].
    intros text.
    destruct (data response) as [[lyrics|]|]; cbn [from_option id].
    + unfold truthy.
      destruct (String.eqb_spec (lyrics_text lyrics) "") as [Hempty|Hfull]; cbn [negb].
      * split; [discriminate|]. intros (_ & Hne & l & [= <-] & Hl). congruence.
      * split.
        -- intros [= <-]. repeat split; [exact Hfull | eauto].
        -- intros (_ & _ & l & [= <-] & Hl). now rewrite Hl.
    + split; [discriminate | intros (_ & _ & l & [=] & _)].
    + split; [discriminate | intros (_ & _ & l & [=] & _)].
Qed.

(** X13.  An extension that the remote service accepts is polled only
    if the attempt counter it inherits is below the budget: then the
    manager is in [polling] with progress 10 and the first poll goes out
    for the clips of the extension; with the counter at or above the
    budget (and automatic polling on) the manager takes the generation
    id and the clips and fails at once with the timeout message, no poll
    being sent. *)
Theorem X13_extension_inherits_counter (cfg : Options) (trackId prompt : string)
    (options : ExtendOptions) (extension : ExtendTrackResponse) (w : World) :
  autoStartPolling cfg = true ->
  let w' := exec (extendTrack_resume cfg (ok_response extension))
              (exec (extendTrack trackId prompt options) w) in
  generationId (state w') = Some (generation_id extension) /\
  tracks (state w') = clips extension /\
  progress (state w') = 10%Q /\
  pollAttemptsRef (state w') = pollAttemptsRef (state w) /\
  (pollAttemptsRef (state w) < maxPollAttempts cfg ->
     status (state w') = polling /\ error_message (state w') = None /\
     remote_calls (trace w')
     = remote_calls (trace w)
       ++ [CallExtendTrack trackId prompt options;
           CallGetTracks (map track_id (clips extension))]) /\
  (maxPollAttempts cfg <= pollAttemptsRef (state w) ->
     status (state w') = failed /\
     error_message (state w') = Some timeout_message /\
     remote_calls (trace w')
     = remote_calls (trace w) ++ [CallExtendTrack trackId prompt options]).
Proof.
  intros Hauto. cbv zeta.
  unfold extendTrack_resume, submitted_resume.
  cbn [error ok_response data from_option id]. rewrite Hauto, !exec_bind.
  set (w1 := exec (setProgress 10%Q) _).
  assert (Hattempts : pollAttemptsRef (state w1) = pollAttemptsRef (state w))
    by reflexivity.
  assert (Htrace : remote_calls (trace w1)
                   = remote_calls (trace w) ++ [CallExtendTrack trackId prompt options]).
  { subst w1. cbn. now rewrite remote_calls_app. }
  destruct (Nat.le_gt_cases (maxPollAttempts cfg) (pollAttemptsRef (state w)))
    as [Hmax|Hmax].
  - rewrite poll_exhausted by (rewrite Hattempts; exact Hmax).
    cbn [state with_state set_status set_error generationId tracks progress
         pollAttemptsRef status error_message trace].
    repeat split; try reflexivity; try exact Htrace; intros; lia.
  - rewrite poll_sends by (rewrite Hattempts; exact Hmax).
    cbn [state generationId tracks progress pollAttemptsRef status error_message trace].
    repeat split; try reflexivity; intros; try lia.
    rewrite remote_calls_app, Htrace, <- app_assoc. reflexivity.
Qed.

(** ** The screens *)

Lemma includes_iff item (prev : list string) :
  existsb (String.eqb item) prev = true <-> item ∈ prev.
Proof.
  rewrite List.existsb_exists. split.
  - intros (x & Hin & Heq). apply String.eqb_eq in Heq. subst.
    now apply list_elem_of_In.
  - intros Hin. exists item. split; [now apply list_elem_of_In | apply String.eqb_refl].
Qed.

Lemma without_elem item other (prev : list string) :
  other ∈ List.filter (fun g => negb (String.eqb g item)) prev
  <-> other ∈ prev /\ other <> item.
Proof.
  rewrite list_elem_of_In, List.filter_In, <- list_elem_of_In, negb_true_iff.
  now rewrite String.eqb_neq.
Qed.

Lemma without_absent item (prev : list string) :
  item ∉ prev -> List.filter (fun g => negb (String.eqb g item)) prev = prev.
Proof.
  intros Hnot. apply filter_all. rewrite Forall_forall. intros g Hg.
  apply negb_true_iff, String.eqb_neq. intros ->. contradiction.
Qed.

(** X14.  Toggling a chip flips the membership of that chip and of no
    other, keeps a selection free of duplicates free of duplicates, and
    toggling twice a chip that was not selected gives back the
    selection as it was. *)
Theorem X14_toggle_flips_one_chip (item : string) (prev : list string) :
  NoDup prev ->
  let next := Screens.toggle item prev in
  NoDup next /\
  (item ∈ next <-> item ∉ prev) /\
  (forall other, other <> item -> (other ∈ next <-> other ∈ prev)) /\
  (item ∉ prev -> Screens.toggle item next = prev).
Proof.
  intros Hnodup. cbv zeta. unfold Screens.toggle at 1 2 3.
  destruct (existsb (String.eqb item) prev) eqn:Hin.
  - apply includes_iff in Hin. split; [|split; [|split]].
    + apply NoDup_ListNoDup, List.NoDup_filter, NoDup_ListNoDup, Hnodup.
    + rewrite without_elem. tauto.
    + intros other Hne. rewrite without_elem. tauto.
    + contradiction.
  - assert (Hnot : item ∉ prev).
    { intros H. apply includes_iff in H. congruence. }
    split; [|split; [|split]].
    + apply NoDup_app. split; [exact Hnodup|]. split; [|apply NoDup_singleton].
      intros x Hx Hx'. apply list_elem_of_singleton in Hx'. now subst.
    + rewrite elem_of_app, list_elem_of_singleton. tauto.
    + intros other Hne. rewrite elem_of_app, list_elem_of_singleton. tauto.
    + intros _. unfold Screens.toggle. rewrite Hin.
      assert (Hnow : existsb (String.eqb item) (prev ++ [item]) = true).
      { apply includes_iff, elem_of_app. right. now left. }
      rewrite Hnow, List.filter_app, without_absent by exact Hnot.
      cbn. rewrite String.eqb_refl. cbn. apply app_nil_r.
Qed.

Lemma insert_by_perm {A} (cmp : A -> A -> Z) x l : Screens.insert_by cmp x l ≡ₚ x :: l.
Proof.
  induction l as [|y l IH]; cbn; [reflexivity|].
  destruct (cmp x y <=? 0)%Z; [reflexivity|].
  rewrite IH. apply Permutation_swap.
Qed.

Lemma sort_by_perm {A} (cmp : A -> A -> Z) l : Screens.sort_by cmp l ≡ₚ l.
Proof.
  induction l as [|x l IH]; cbn; [reflexivity|].
  now rewrite insert_by_perm, IH.
Qed.

Lemma sort_by_newest (l : list CachedTrack) :
  Entry <$> Screens.sort_by (fun a b => cached_at b - cached_at a)%Z l
  = sort_newest_first (Entry <$> l).
Proof.
  induction l as [|x l IH]; cbn; [reflexivity|]. rewrite <- IH.
  generalize (Screens.sort_by (fun a b => cached_at b - cached_at a)%Z l). intros s.
  induction s as [|y s IHs]; cbn; [reflexivity|].
  destruct (cached_at y - cached_at x <=? 0)%Z; [reflexivity|].
  cbn. now rewrite IHs.
Qed.

Lemma sort_newest_first_fixed l : newest_first l -> sort_newest_first l = l.
Proof.
  unfold newest_first. induction 1 as [|x l Hl IH Hx]; cbn; [reflexivity|].
  rewrite IH. destruct l as [|y l]; [reflexivity|]. cbn.
  inversion Hx as [|? ? Hy _]; subst. unfold newer_or_same in Hy.
  unfold by_newest.
  destruct (time_of x) as [tx|]; [|contradiction].
  destruct (time_of y) as [ty|]; [|contradiction]. cbn.
  destruct (Z.leb_spec (ty - tx) 0); [reflexivity | lia].
Qed.

(** Whatever the values, the sort leaves no value before one it
    compares greater than. *)
Lemma insert_newest_in_order x l : in_order l -> in_order (insert_newest x l).
Proof.
  unfold in_order. induction 1 as [|y l Hl IH Hy]; cbn.
  - repeat constructor.
  - destruct (Z.leb_spec (default 0%Z (by_newest x y)) 0) as [Hle|Hgt].
    + constructor; [now constructor|]. constructor. exact Hle.
    + constructor; [exact IH|].
      assert (Hyx : not_after y x).
      { unfold not_after, by_newest in *.
        destruct (time_of y), (time_of x); cbn in *; lia. }
      destruct l as [|z l]; cbn; [now constructor|].
      destruct (default 0 (by_newest x z) <=? 0)%Z; constructor; [exact Hyx|].
      now inversion Hy.
Qed.

Lemma sort_newest_first_in_order l : in_order (sort_newest_first l).
Proof.
  induction l as [|x l IH]; cbn; [constructor | now apply insert_newest_in_order].
Qed.

Lemma in_order_take n l : in_order l -> in_order (take n l).
Proof.
  unfold in_order. intros H. revert n.
  induction H as [|x l Hl IH Hx]; intros [|n]; cbn; try constructor.
  - apply IH.
  - destruct l as [|y l], n as [|n]; cbn; constructor. now inversion Hx.
Qed.

Lemma in_order_entries (l : list CachedTrack) :
  in_order (Entry <$> l) -> newest_first (Entry <$> l).
Proof.
  unfold in_order, newest_first.
  induction l as [|x l IH]; cbn; intros H; [constructor|].
  inversion H as [|? ? Hl Hx]; subst. specialize (IH Hl).
  constructor; [exact IH|].
  destruct l as [|y l]; cbn in *; [constructor|].
  inversion Hx as [|? ? Hxy]; subst.
  assert (Hle : (cached_at y <= cached_at x)%Z).
  { unfold not_after, by_newest in Hxy. cbn in Hxy. lia. }
  constructor; [exact Hle|].
  inversion IH as [|? ? _ Hy]; subst.
  eapply List.Forall_impl; [|exact Hy]. cbn. intros v.
  unfold newer_or_same. cbn. destruct (time_of v); [lia | trivial].
Qed.

Lemma Entry_fmap_inj (l1 l2 : list CachedTrack) :
  Entry <$> l1 = Entry <$> l2 -> l1 = l2.
Proof.
  revert l2. induction l1 as [|x l1 IH]; intros [|y l2]; cbn; try discriminate.
  - reflexivity.
  - intros [= -> H]. f_equal. now apply IH.
Qed.

Lemma sound_entries t l :
  Forall (sound_entry t) l -> exists entries : list CachedTrack, l = Entry <$> entries.
Proof.
  induction 1 as [|v l (c & -> & _) _ [entries ->]].
  - now exists [].
  - now exists (c :: entries).
Qed.

Lemma insert_by_oldest_sorted x l :
  oldest_first l ->
  oldest_first (Screens.insert_by (fun a b => cached_at a - cached_at b)%Z x l).
Proof.
  unfold oldest_first. induction 1 as [|y l Hl IH Hy]; cbn.
  - repeat constructor.
  - destruct (Z.leb_spec (cached_at x - cached_at y) 0) as [Hle|Hgt].
    + constructor; [now constructor|].
      constructor; [lia|].
      eapply List.Forall_impl; [|exact Hy]. cbn. intros; lia.
    + constructor; [exact IH|].
      rewrite Forall_forall. intros c Hc.
      rewrite insert_by_perm in Hc. apply elem_of_cons in Hc as [->|Hc].
      * lia.
      * rewrite Forall_forall in Hy. now apply Hy.
Qed.

(** X15.  [sortTracks] shows every cached track once, whatever the
    order chosen: its result is a permutation of the list.  In the
    order [newest] it is ordered by [cached_at] descending and leaves a
    list that is already so ordered as it is, in particular the list
    the hook sets on a refresh (which, over a sound store, is a list of
    cached tracks); in the order [oldest] it is ordered by [cached_at]
    ascending. *)
Theorem X15_sortTracks_orders (localeCompare : string -> string -> Z)
    (sortBy : Screens.SortBy) (tracks : list CachedTrack) :
  Screens.sortTracks localeCompare sortBy tracks ≡ₚ tracks /\
  newest_first (Entry <$> Screens.sortTracks localeCompare Screens.newest tracks) /\
  (newest_first (Entry <$> tracks) ->
     Screens.sortTracks localeCompare Screens.newest tracks = tracks) /\
  (forall cfg w,
      cachedTracks (state (exec (refreshCachedTracks cfg) w)) = Entry <$> tracks ->
      Screens.sortTracks localeCompare Screens.newest tracks = tracks) /\
  (forall cfg w,
      store_sound w ->
      exists listed : list CachedTrack,
        cachedTracks (state (exec (refreshCachedTracks cfg) w)) = Entry <$> listed /\
        Screens.sortTracks localeCompare Screens.newest listed = listed) /\
  oldest_first (Screens.sortTracks localeCompare Screens.oldest tracks).
Proof.
  split; [destruct sortBy; apply sort_by_perm|].
  unfold Screens.sortTracks.
  assert (Hfixed : forall l : list CachedTrack,
            newest_first (Entry <$> l) ->
            Screens.sort_by (fun a b => cached_at b - cached_at a)%Z l = l).
  { intros l Hl. apply Entry_fmap_inj. rewrite sort_by_newest.
    now apply sort_newest_first_fixed. }
  assert (Hrefresh : forall cfg w (l : list CachedTrack),
            cachedTracks (state (exec (refreshCachedTracks cfg) w)) = Entry <$> l ->
            newest_first (Entry <$> l)).
  { intros cfg w l Hl. apply in_order_entries. rewrite <- Hl.
    rewrite refreshCachedTracks_exec. cbv zeta.
    cbn [state with_state set_cachedTracks cachedTracks].
    apply in_order_take, sort_newest_first_in_order. }
  split.
  { rewrite sort_by_newest. apply sort_newest_first_sorted.
    rewrite Forall_forall. intros v Hv.
    apply list_elem_of_fmap in Hv as (c & -> & _). eexists. reflexivity. }
  split; [apply Hfixed|].
  split; [intros cfg w Hl; apply Hfixed; now apply (Hrefresh cfg w)|].
  split.
  - intros cfg w Hstore.
    destruct (invariant_refresh cfg w Hstore) as [_ (_ & Hsorted & Hall & _)].
    destruct (sound_entries _ _ Hall) as [listed Hlisted].
    exists listed. split; [exact Hlisted|].
    apply Hfixed. now rewrite <- Hlisted.
  - induction tracks as [|x l IH]; cbn; [constructor|].
    now apply insert_by_oldest_sorted.
Qed.

(** X16.  A key set with [setApiKey] is the one requests are sent with,
    as bearer token; setting the empty key leaves the service without a
    credential, and nothing is sent. *)
Theorem X16_setApiKey_is_used {T} (s : SunoApi.Service) (k : string)
    endpoint options (o : SunoApi.FetchOutcome T) :
  let s' := snd (SunoApi.makeRequest endpoint options o (SunoApi.setApiKey k s)) in
  (k <> "" ->
     SunoApi.sent s'
     = SunoApi.sent s ++ [{| SunoApi.url := SunoApi.baseUrl +:+ endpoint;
                             SunoApi.authorization := "Bearer " +:+ k;
                             SunoApi.init := options |}]) /\
  (k = "" ->
     SunoApi.makeRequest endpoint options o (SunoApi.setApiKey k s)
     = (no_api_key, SunoApi.setApiKey k s)).
Proof.
  cbv zeta. split.
  - intros Hk.
    assert (Hcred : credential (SunoApi.setApiKey k s) k).
    { split; [reflexivity|]. unfold truthy.
      now destruct (String.eqb_spec k ""). }
    now destruct (request_stamp endpoint options o _ k Hcred) as (_ & _ & _ & ->).
  - intros ->. apply makeRequest_no_credential. now right.
Qed.

(** ** More instances *)


Lemma X4_pollTrackCompletion_bounded_witness :
  0 < 3 /\
  all_terminal (ok_response
                  (SunoApi.TrackArray [SunoApi.ElementTrack (sample_track "a" complete)])).
Proof.
  apply (proj1 (proj2 (X4_pollTrackCompletion_bounded keyed_service ["a"] 3 5000
                         (fun _ => track_reply complete)))
           (ok_response
              (SunoApi.TrackArray [SunoApi.ElementTrack (sample_track "a" complete)]))).
  - vm_compute. reflexivity.
  - reflexivity.
Defined.

Lemma X6_cached_track_found_for_a_day_witness :
  getCachedTrack "a"
    (with_clock (clock fresh_world + 3600000)%Z
       (exec (cacheTrack default_options (sample_track "a" complete)) fresh_world))
  = (Some (Entry (fresh_entry (sample_track "a" complete) fresh_world)),
     with_clock (clock fresh_world + 3600000)%Z
       (exec (cacheTrack default_options (sample_track "a" complete)) fresh_world)).
Proof.
  apply (proj1 (proj2 (X6_cached_track_found_for_a_day default_options
                         (sample_track "a" complete) fresh_world 3600000
                         ltac:(lia)))).
  unfold DAY_MS. lia.
Defined.

Lemma X7_getTrack_cache_first_witness :
  getTrack "a" an_hour_later = (Found entry_a, an_hour_later).
Proof.
  apply (proj1 (X7_getTrack_cache_first "a" an_hour_later) entry_a).
  - vm_compute. reflexivity.
  - vm_compute. discriminate.
Defined.

Lemma X8_getTrack_reply_witness :
  track_id (sample_track "a" complete) = "a" /\
  (is_complete (sample_track "a" complete) = true ->
   getTrack "a"
     (exec (getTrack_resume default_options "a"
              (ok_response [sample_track "a" complete])) fresh_world)
   = (Found (fresh_entry (sample_track "a" complete) fresh_world),
      exec (getTrack_resume default_options "a"
              (ok_response [sample_track "a" complete])) fresh_world)).
Proof.
  destruct (proj1 (proj2 (X8_getTrack_reply default_options "a"
                            [sample_track "a" complete] fresh_world))
              (sample_track "a" complete) eq_refl) as (Hid & Hhit & _).
  split; assumption.
Defined.

Lemma X9_cache_stays_consistent_witness : cache_invariant default_options completed_world.
Proof.
  apply (proj1 (X9_cache_stays_consistent default_options
                  (one_track_accepted ++ [late_reply complete])
                  fresh_world completed_world
                  (initial_world_consistent default_options 0)
                  ltac:(vm_compute; reflexivity))).
Defined.

Lemma X10_stalled_generation_times_out_witness :
  exists w',
    run default_options (stalled_rounds sixty_stalled_replies 2) first_poll_in_flight
    = Some w' /\
    status (state w') = failed /\
    error_message (state w') = Some timeout_message /\
    timers w' = [] /\ inflight w' = [] /\
    storage w' = storage first_poll_in_flight /\
    remote_calls (trace w')
    = remote_calls (trace first_poll_in_flight)
      ++ replicate (maxPollAttempts default_options - 1) (CallGetTracks ["a"]).
Proof.
  apply (X10_stalled_generation_times_out default_options ["a"]
           sixty_stalled_replies first_poll_in_flight 2).
  - repeat split.
  - reflexivity.
  - repeat constructor.
  - reflexivity.
  - cbn. lia.
Defined.

Lemma X11_cancel_notifies_only_with_id_witness :
  remote_calls (trace (exec cancelGeneration generation_known))
  = remote_calls (trace generation_known) ++ [CallCancelGeneration "g1"].
Proof.
  apply (proj1 (proj1 (proj2 (X11_cancel_notifies_only_with_id generation_known))
                  "g1" eq_refl eq_refl)).
Defined.

Lemma X12_lyrics_reply_witness :
  eval (generateLyrics_resume lyrics_reply) fresh_world = Some "La la la".
Proof.
  apply (proj1 (X12_lyrics_reply lyrics_reply fresh_world) "La la la").
  split; [reflexivity|]. split; [discriminate|].
  eexists. split; reflexivity.
Defined.

Lemma X13_extension_inherits_counter_witness :
  status (state (exec (extendTrack_resume default_options (ok_response extension_b))
                   (exec (extendTrack "a" "one more verse" no_extend_options)
                      budget_spent))) = failed.
Proof.
  apply (proj2 (proj2 (proj2 (proj2 (proj2
           (X13_extension_inherits_counter default_options "a" "one more verse"
              no_extend_options extension_b budget_spent eq_refl)))))).
  cbn. lia.
Defined.

Lemma X14_toggle_flips_one_chip_witness :
  Screens.toggle "Jazz" (Screens.toggle "Jazz" ["Pop"; "Rock"]) = ["Pop"; "Rock"].
Proof.
  apply (proj2 (proj2 (proj2
           (X14_toggle_flips_one_chip "Jazz" ["Pop"; "Rock"]
              ltac:(apply NoDup_ListNoDup; repeat constructor; cbn; intuition discriminate))))).
  intros Hin. apply list_elem_of_In in Hin. cbn in Hin. intuition discriminate.
Defined.

Lemma X15_sortTracks_orders_witness :
  Screens.sortTracks (fun _ _ => 0%Z) Screens.newest [entry_a] = [entry_a].
Proof.
  apply (proj1 (proj2 (proj2 (X15_sortTracks_orders (fun _ _ => 0%Z) Screens.newest
                                [entry_a])))).
  repeat constructor.
Defined.

Lemma X16_setApiKey_is_used_witness :
  SunoApi.sent
    (snd (SunoApi.makeRequest (T := unit) "/api/get_credits" SunoApi.no_init
            (SunoApi.HttpReply true 200 SunoApi.BodyNull)
            (SunoApi.setApiKey "sk-live" keyless_service)))
  = [{| SunoApi.url := "https://api.sunoapi.org/api/get_credits";
        SunoApi.authorization := "Bearer sk-live";
        SunoApi.init := SunoApi.no_init |}].
Proof.
  apply (proj1 (X16_setApiKey_is_used (T := unit) keyless_service "sk-live"
                  "/api/get_credits" SunoApi.no_init
                  (SunoApi.HttpReply true 200 SunoApi.BodyNull))).
  discriminate.
Defined.
